(** * NestServerGrpc: the gRPC dispatch layer, embedded and verified

    A shallow embedding of the class [NestServerGrpc]: the pattern registry
    ([createPattern], [addHandler]), the service binder ([createService],
    [createServiceMethod]), the stream writer ([writeObservableToGrpc]), the
    call adapters and the service discovery walk ([getServiceNames]).

    Event-driven code is embedded as a transition function on an explicit
    state: one transition per callback the source registers.  The transport
    ([call.write], [call.end], [call.emit]) is a log of the operations that
    were invoked on the call. *)

From Stdlib Require Import ZArith Ascii String List Bool Lia.
From stdpp Require Import base option list strings gmap.

Local Open Scope string_scope.

(** ** Notifications of an RxJS observable

    An observer receives [next] any number of times and then at most one
    of [error] and [complete]. *)

Inductive notification (T E : Type) : Type :=
| Next (value : T)
| Error (err : E)
| Complete.
Arguments Next {T E} value.
Arguments Error {T E} err.
Arguments Complete {T E}.

(** An invocation of the single-response callback of a call:
    [callback(null, value)] or [callback(err)] / [callback(err, null)]. *)
Inductive callback_call (T E : Type) : Type :=
| CbValue (value : T)
| CbError (err : E).
Arguments CbValue {T E} value.
Arguments CbError {T E} err.

(** ** The stream writer: [writeObservableToGrpc] *)

Module Writer.

(** The promise returned by [writeObservableToGrpc]; it settles once. *)
Inductive promise_state (E : Type) : Type :=
| Pending
| Resolved
| Rejected (err : E).
Arguments Pending {E}.
Arguments Resolved {E}.
Arguments Rejected {E} err.

(** What the writer has to react to: a notification of the source
    observable, a ['drain'] event or a [CANCEL_EVENT] on the call. *)
Inductive event (T E : Type) : Type :=
| Notify (n : notification T E)
| Drain
| Cancel.
Arguments Notify {T E} n.
Arguments Drain {T E}.
Arguments Cancel {T E}.

Section WithCall.

Context {T E : Type}.

(** The result of the [n]-th [call.write] (counted from 0): [false] asks
    the writer to wait for a ['drain'] event. *)
Variable accepts : nat -> bool.

(** The closure of one invocation together with the operations it has
    performed on the call so far. *)
Record state : Type := mkState {
  buffer : list T;
  isComplete : bool;
  clearToWrite : bool;
  (* [call.on('drain', drainHandler)] is still registered *)
  drainOn : bool;
  (* [call.on(CANCEL_EVENT, cancelHandler)] is still registered *)
  cancelOn : bool;
  (* the subscriber to [source] is still open *)
  subscribed : bool;
  promise : promise_state E;
  (* values passed to [call.write], oldest first *)
  written : list T;
  (* number of [call.end()] invocations *)
  ended : nat;
  (* arguments of [call.emit('error', _)], oldest first *)
  errors : list E
}.

(** The state after the executor of the promise has run: both listeners
    registered, subscribed to the source, nothing emitted yet. *)
Definition init : state :=
  mkState [] false true true true true Pending [] 0 [].

Definition write (value : T) (st : state) : state :=
  mkState (buffer st) (isComplete st) (accepts (length (written st)))
          (drainOn st) (cancelOn st) (subscribed st) (promise st)
          (written st ++ [value]) (ended st) (errors st).

Definition cleanup (st : state) : state :=
  mkState (buffer st) (isComplete st) (clearToWrite st)
          false false (subscribed st) (promise st)
          (written st) (ended st) (errors st).

Definition call_end (st : state) : state :=
  mkState (buffer st) (isComplete st) (clearToWrite st)
          (drainOn st) (cancelOn st) (subscribed st) (promise st)
          (written st) (S (ended st)) (errors st).

Definition call_emit_error (err : E) (st : state) : state :=
  mkState (buffer st) (isComplete st) (clearToWrite st)
          (drainOn st) (cancelOn st) (subscribed st) (promise st)
          (written st) (ended st) (errors st ++ [err]).

Definition settle (p : promise_state E) (st : state) : state :=
  mkState (buffer st) (isComplete st) (clearToWrite st)
          (drainOn st) (cancelOn st) (subscribed st)
          (match promise st with Pending => p | settled => settled end)
          (written st) (ended st) (errors st).

Definition resolve : state -> state := settle Resolved.
Definition reject (err : E) : state -> state := settle (Rejected err).

Definition set_clearToWrite (b : bool) (st : state) : state :=
  mkState (buffer st) (isComplete st) b
          (drainOn st) (cancelOn st) (subscribed st) (promise st)
          (written st) (ended st) (errors st).

Definition set_buffer (b : list T) (st : state) : state :=
  mkState b (isComplete st) (clearToWrite st)
          (drainOn st) (cancelOn st) (subscribed st) (promise st)
          (written st) (ended st) (errors st).

Definition set_isComplete (b : bool) (st : state) : state :=
  mkState (buffer st) b (clearToWrite st)
          (drainOn st) (cancelOn st) (subscribed st) (promise st)
          (written st) (ended st) (errors st).

(** [subscription.unsubscribe()], and the closing of the subscriber after
    [error] or [complete]. *)
Definition unsubscribe (st : state) : state :=
  mkState (buffer st) (isComplete st) (clearToWrite st)
          (drainOn st) (cancelOn st) false (promise st)
          (written st) (ended st) (errors st).

Definition done (st : state) : state :=
  cleanup (resolve (call_end st)).

Definition drainHandler (st : state) : state :=
  if clearToWrite st then st
  else
    let st := set_clearToWrite true st in
    match buffer st with
    | value :: rest => write value (set_buffer rest st)
    | [] => if isComplete st then done st else st
    end.

Definition cancelHandler (st : state) : state :=
  done (unsubscribe st).

Definition on_next (value : T) (st : state) : state :=
  if clearToWrite st then write value st
  else set_buffer (buffer st ++ [value]) st.

Definition on_error (err : E) (st : state) : state :=
  cleanup (reject err (call_emit_error err st)).

Definition on_complete (st : state) : state :=
  let st := set_isComplete true st in
  match buffer st with
  | [] => done st
  | _ :: _ => st
  end.

(** One event.  A listener runs only while it is registered; the observer
    runs only while the subscriber is open, and a terminal notification
    closes the subscriber. *)
Definition step (st : state) (ev : event T E) : state :=
  match ev with
  | Notify n =>
      if subscribed st then
        match n with
        | Next value => on_next value st
        | Error err => on_error err (unsubscribe st)
        | Complete => on_complete (unsubscribe st)
        end
      else st
  | Drain => if drainOn st then drainHandler st else st
  | Cancel => if cancelOn st then cancelHandler st else st
  end.

Definition run (st : state) (evs : list (event T E)) : state :=
  fold_left step evs st.

Definition writeObservableToGrpc (evs : list (event T E)) : state :=
  run init evs.

(** [createStreamServiceMethod]: the adapter awaits the writer's promise
    and, when it rejects, emits ['error'] on the call. *)
Definition stream_service_step (st : state) (ev : event T E) : state :=
  let st' := step st ev in
  match promise st, promise st' with
  | Pending, Rejected err => call_emit_error err st'
  | _, _ => st'
  end.

Definition createStreamServiceMethod (evs : list (event T E)) : state :=
  fold_left stream_service_step evs init.

(** *** Vocabulary of the statements about the writer *)

(** The values the producer emitted, in emission order. *)
Definition emissions (evs : list (event T E)) : list T :=
  flat_map (fun ev => match ev with Notify (Next v) => [v] | _ => [] end) evs.

Definition is_cancel (ev : event T E) : bool :=
  match ev with Cancel => true | _ => false end.

Definition no_cancel (evs : list (event T E)) : bool :=
  forallb (fun ev => negb (is_cancel ev)) evs.

(** Both listeners removed and the subscriber closed. *)
Definition torn_down (st : state) : Prop :=
  subscribed st = false /\ drainOn st = false /\ cancelOn st = false.

(** What holds of every state an invocation can be in. *)
Record inv (st : state) : Prop := mkInv {
  inv_listeners : drainOn st = cancelOn st;
  inv_subscribed : subscribed st = true -> cancelOn st = true;
  inv_live : cancelOn st = true ->
             ended st = 0 /\ promise st = Pending /\ errors st = [];
  inv_closed : isComplete st = true -> subscribed st = false;
  inv_ended : ended st <> 0 ->
              ended st = 1 /\ subscribed st = false /\ cancelOn st = false;
  inv_dead : cancelOn st = false -> ended st <> 0 \/ errors st <> []
}.

End WithCall.

(** *** Calls used as examples: numbers as values, strings as errors *)

Definition value (v : nat) : event nat string := Notify (Next v).

(** A call whose [write] returns [false] exactly at the listed writes. *)
Definition backpressure_at (ns : list nat) (n : nat) : bool :=
  negb (existsb (Nat.eqb n) ns).

Ltac break_state st :=
  destruct st as [buf cpl clr dOn cOn sub prm wrt n errs].

Ltac unfold_writer :=
  unfold step, stream_service_step, drainHandler, cancelHandler,
    on_next, on_error, on_complete, done, cleanup, resolve, reject, settle,
    call_end, call_emit_error, write, unsubscribe, set_buffer,
    set_clearToWrite, set_isComplete in *;
  cbn [buffer isComplete clearToWrite drainOn cancelOn subscribed promise
       written ended errors] in *.

End Writer.

(** ** JavaScript values and string operations used by the source *)

Module Js.

(** [String.prototype.toLowerCase], on strings of ASCII characters. *)
Definition lower_ascii (c : ascii) : ascii :=
  let n := nat_of_ascii c in
  if Nat.leb 65 n && Nat.leb n 90 then ascii_of_nat (n + 32) else c.

Fixpoint toLowerCase (s : string) : string :=
  match s with
  | EmptyString => EmptyString
  | String c rest => String (lower_ascii c) (toLowerCase rest)
  end.

Fixpoint startsWith (s search : string) : bool :=
  match search, s with
  | EmptyString, _ => true
  | String _ _, EmptyString => false
  | String a search', String b s' =>
      if Ascii.eqb a b then startsWith s' search' else false
  end.

(** [s.indexOf(search)]: the index of the first occurrence, [-1] when
    there is none. *)
Fixpoint indexOf_from (s search : string) (pos : Z) : Z :=
  if startsWith s search then pos
  else match s with
       | EmptyString => (-1)%Z
       | String _ rest => indexOf_from rest search (pos + 1)
       end.

Definition indexOf (s search : string) : Z := indexOf_from s search 0.

(** A number used as a condition: every number but [0] is truthy ([NaN]
    does not arise from [indexOf]). *)
Definition truthy_number (n : Z) : bool := negb (Z.eqb n 0).

#[local] Set Warnings "-register-all".

(** The values a loaded package object is made of.  Arrays are objects
    whose keys are their indices; numbers are integers. *)
Inductive jsval : Type :=
| JUndefined
| JNull
| JBool (b : bool)
| JNumber (n : Z)
| JString (s : string)
| JObject (props : list (string * jsval))
| JFunction (props : list (string * jsval)).

(** [isUndefined] and [isObject] of [@nestjs/common/utils/shared.utils]:
    [typeof x === 'undefined'] and [!isNil(x) && typeof x === 'object']. *)
Definition isUndefined (v : jsval) : bool :=
  match v with JUndefined => true | _ => false end.

Definition isObject (v : jsval) : bool :=
  match v with JObject _ => true | _ => false end.

Definition truthy (v : jsval) : bool :=
  match v with
  | JUndefined | JNull => false
  | JBool b => b
  | JNumber n => truthy_number n
  | JString s => negb (String.eqb s EmptyString)
  | JObject _ | JFunction _ => true
  end.

Fixpoint lookup_prop (key : string) (props : list (string * jsval)) : jsval :=
  match props with
  | [] => JUndefined
  | (k, v) :: rest => if String.eqb k key then v else lookup_prop key rest
  end.

(** [v.key] on a truthy value: a primitive has no such own property. *)
Definition get (v : jsval) (key : string) : jsval :=
  match v with
  | JObject props | JFunction props => lookup_prop key props
  | _ => JUndefined
  end.

(** [v !== false] *)
Definition strict_ne_false (v : jsval) : bool :=
  match v with JBool false => false | _ => true end.

(** [parts.join(sep)] *)
Fixpoint join (sep : string) (parts : list string) : string :=
  match parts with
  | [] => EmptyString
  | [p] => p
  | p :: rest => p ++ sep ++ join sep rest
  end.

(** [String(e)] of an [Error] object ([Error.prototype.toString]). *)
Record error : Type := mkError { err_name : string; err_message : string }.

Definition String_of (e : error) : string :=
  if String.eqb (err_name e) EmptyString then err_message e
  else if String.eqb (err_message e) EmptyString then err_name e
  else err_name e ++ ": " ++ err_message e.

End Js.

(** ** The pattern registry: [createPattern] and [addHandler] *)

Module Registry.

Import Js.

(** [GrpcMethodStreamingType] of [@nestjs/microservices], with the string
    each member stands for. *)
Inductive GrpcMethodStreamingType : Type :=
| NO_STREAMING
| RX_STREAMING
| PT_STREAMING.

Definition streaming_value (s : GrpcMethodStreamingType) : string :=
  match s with
  | NO_STREAMING => "no_stream"
  | RX_STREAMING => "rx_stream"
  | PT_STREAMING => "pt_stream"
  end.

Definition dquote : ascii := "034"%char.

Definition hex_digit (n : nat) : ascii :=
  match String.get n "0123456789abcdef" with
  | Some c => c
  | None => "0"%char
  end.

(** The escape [JSON.stringify] writes for one character of a string. *)
Definition quote_char (c : ascii) : string :=
  let n := nat_of_ascii c in
  if Nat.eqb n 8 then "\b"
  else if Nat.eqb n 9 then "\t"
  else if Nat.eqb n 10 then "\n"
  else if Nat.eqb n 12 then "\f"
  else if Nat.eqb n 13 then "\r"
  else if Nat.eqb n 34 then String "\"%char (String dquote EmptyString)
  else if Nat.eqb n 92 then "\\"
  else if Nat.ltb n 32 then
    "\u00" ++ String (hex_digit (n / 16)) (String (hex_digit (n mod 16)) EmptyString)
  else String c EmptyString.

Fixpoint quote_chars (s : string) : string :=
  match s with
  | EmptyString => EmptyString
  | String c rest => quote_char c ++ quote_chars rest
  end.

Definition quote (s : string) : string :=
  String dquote (quote_chars s ++ String dquote EmptyString).

(** [JSON.stringify] of an object whose property values are strings: the
    properties are written in the order the object enumerates them. *)
Definition stringify (props : list (string * string)) : string :=
  "{" ++ join "," (map (fun kv => quote (fst kv) ++ ":" ++ quote (snd kv)) props) ++ "}".

Definition createPattern (service methodName : string)
    (streaming : GrpcMethodStreamingType) : string :=
  stringify [("service", service); ("rpc", methodName);
             ("streaming", streaming_value streaming)].

(** The [pattern: unknown] handed to [addHandler]: a string, or an object
    (its string-valued properties, in enumeration order). *)
Inductive pattern : Type :=
| PatString (s : string)
| PatObject (props : list (string * string)).

(** A handler is a function object, known by its reference. *)
Abbreviation handler := nat.

Record server : Type := mkServer {
  (* [this.messageHandlers : Map<string, MessageHandler>] *)
  messageHandlers : gmap string nat;
  (* the [isEventHandler] property of each handler object *)
  isEventHandler : gmap nat bool
}.

Definition empty_server : server := mkServer ∅ ∅.

Definition route_of (p : pattern) : string :=
  match p with
  | PatString s => s
  | PatObject props => stringify props
  end.

Definition addHandler (p : pattern) (callback : handler) (isEvent : bool)
    (srv : server) : server :=
  let route := route_of p in
  mkServer (<[route := callback]> (messageHandlers srv))
           (<[callback := isEvent]> (isEventHandler srv)).

(** [this.messageHandlers.get(route)] *)
Definition lookup_handler (route : string) (srv : server) : option handler :=
  messageHandlers srv !! route.

(** The value a pattern object holds for one of the components
    [service], [rpc], [streaming]. *)
Fixpoint component (key : string) (props : list (string * string)) : option string :=
  match props with
  | [] => None
  | (k, v) :: rest => if String.eqb k key then Some v else component key rest
  end.

(** The key object in the form the binder serializes it. *)
Definition canonical (service methodName : string)
    (streaming : GrpcMethodStreamingType) : pattern :=
  PatObject [("service", service); ("rpc", methodName);
             ("streaming", streaming_value streaming)].

Definition same_components (k1 k2 : list (string * string)) : Prop :=
  component "service" k1 = component "service" k2 /\
  component "rpc" k1 = component "rpc" k2 /\
  component "streaming" k1 = component "streaming" k2.

End Registry.

(** ** The service binder: [createService] and [createServiceMethod] *)

Module Binder.

Import Registry.

(** Modelled from the spec: the method descriptor of [grpc.ServiceDefinition]
    (a type of [@grpc/grpc-js]), as the data model describes it; the method
    name is the key under which the descriptor is stored. *)
Record MethodDefinition : Type := mkMethod {
  requestStream : bool;
  responseStream : bool;
  originalName : string
}.

(** The function bound to a method: which adapter was created, around
    which handler. *)
Inductive adapter : Type :=
| UnaryServiceMethod (methodHandler : handler)
| StreamServiceMethod (methodHandler : handler)
| RequestStreamMethod (methodHandler : handler) (isResponseStream : bool)
| StreamCallMethod (methodHandler : handler) (isResponseStream : bool).

Definition createServiceMethod (methodHandler : handler)
    (protoNativeHandler : MethodDefinition)
    (streamType : GrpcMethodStreamingType) : adapter :=
  let fallthrough :=
    if responseStream protoNativeHandler
    then StreamServiceMethod methodHandler
    else UnaryServiceMethod methodHandler in
  if requestStream protoNativeHandler then
    match streamType with
    | RX_STREAMING =>
        RequestStreamMethod methodHandler (responseStream protoNativeHandler)
    | PT_STREAMING =>
        StreamCallMethod methodHandler (responseStream protoNativeHandler)
    | NO_STREAMING => fallthrough
    end
  else fallthrough.

(** The first part of the loop body of [createService]: the handler found
    under the method name, and the streaming type last tried. *)
Definition lookup_by_methodName (srv : server) (name methodName : string)
    (methodFunction : MethodDefinition)
  : option handler * GrpcMethodStreamingType :=
  if requestStream methodFunction then
    match lookup_handler (createPattern name methodName RX_STREAMING) srv with
    | Some h => (Some h, RX_STREAMING)
    | None =>
        (lookup_handler (createPattern name methodName PT_STREAMING) srv,
         PT_STREAMING)
    end
  else
    (lookup_handler (createPattern name methodName NO_STREAMING) srv,
     NO_STREAMING).

(** The whole loop body: [None] is the [continue]. *)
Definition bind_method (srv : server) (name methodName : string)
    (methodFunction : MethodDefinition) : option adapter :=
  let '(methodHandler, streamingType) :=
    lookup_by_methodName srv name methodName methodFunction in
  let methodHandler :=
    match methodHandler with
    | Some h => Some h
    | None =>
        if negb (String.eqb methodName (originalName methodFunction))
        then lookup_handler
               (createPattern name (originalName methodFunction) streamingType)
               srv
        else None
    end in
  match methodHandler with
  | None => None
  | Some h => Some (createServiceMethod h methodFunction streamingType)
  end.

(** [createService]: [grpcService] lists the methods in the order of the
    [for ... in] loop. *)
Definition createService (srv : server)
    (grpcService : list (string * MethodDefinition)) (name : string)
  : gmap string adapter :=
  fold_left
    (fun service entry =>
       match bind_method srv name (fst entry) (snd entry) with
       | None => service
       | Some a => <[fst entry := a]> service
       end)
    grpcService ∅.

End Binder.

(** ** Call adapters *)

Module Adapters.

Import Js.

(** *** [createUnaryServiceMethod] *)

Section Unary.

Context {T E : Type}.

(** [next] is an async function: [callback(null, await data)] runs in a
    microtask, after the job that delivered the value; [error] calls the
    callback at once. *)
Record unary_state : Type := mkUnary {
  observing : bool;
  microtasks : list T;
  callbacks : list (callback_call T E)
}.

Inductive unary_event : Type :=
| Deliver (n : notification T E)
| JobEnd.

Definition run_microtasks (st : unary_state) : unary_state :=
  mkUnary (observing st) [] (callbacks st ++ map CbValue (microtasks st)).

Definition unary_step (st : unary_state) (ev : unary_event) : unary_state :=
  match ev with
  | Deliver n =>
      if observing st then
        match n with
        | Next data =>
            mkUnary true (microtasks st ++ [data]) (callbacks st)
        | Error err =>
            mkUnary false (microtasks st) (callbacks st ++ [CbError err])
        | Complete =>
            mkUnary false (microtasks st) (callbacks st)
        end
      else st
  | JobEnd => run_microtasks st
  end.

(** The callback invocations of one unary call, given what the normalized
    result of the handler does. *)
Definition createUnaryServiceMethod (evs : list unary_event)
  : list (callback_call T E) :=
  callbacks (run_microtasks (fold_left unary_step evs (mkUnary true [] []))).

(** The values the result delivers before it terminates, and the error
    it terminates with (none when it completes or never terminates). *)
Fixpoint emitted_values (evs : list unary_event) : list T :=
  match evs with
  | [] => []
  | Deliver (Next v) :: rest => v :: emitted_values rest
  | Deliver _ :: _ => []
  | JobEnd :: rest => emitted_values rest
  end.

Fixpoint emitted_error (evs : list unary_event) : list E :=
  match evs with
  | [] => []
  | Deliver (Error e) :: _ => [e]
  | Deliver Complete :: _ => []
  | Deliver (Next _) :: rest | JobEnd :: rest => emitted_error rest
  end.

End Unary.

(** *** [createRequestStreamMethod]: the listeners on the call *)

Section RequestStream.

Context {M : Type}.

(** The [Subject] the request messages are pushed into. *)
Inductive subject_status : Type :=
| Active
| Failed (err : error)
| Completed.

Record request_state : Type := mkRequest {
  (* messages passed on by [req.next] *)
  req_values : list M;
  req_status : subject_status;
  (* number of [call.end()] invocations *)
  call_ends : nat
}.

Definition request_init : request_state := mkRequest [] Active 0.

Definition req_next (m : M) (st : request_state) : request_state :=
  match req_status st with
  | Active => mkRequest (req_values st ++ [m]) Active (call_ends st)
  | _ => st
  end.

Definition req_error (e : error) (st : request_state) : request_state :=
  match req_status st with
  | Active => mkRequest (req_values st) (Failed e) (call_ends st)
  | _ => st
  end.

Definition req_complete (st : request_state) : request_state :=
  match req_status st with
  | Active => mkRequest (req_values st) Completed (call_ends st)
  | _ => st
  end.

Definition on_call_data (m : M) (st : request_state) : request_state :=
  req_next m st.

Definition on_call_error (e : error) (st : request_state) : request_state :=
  let isCancelledError := indexOf (toLowerCase (String_of e)) "cancelled" in
  if truthy_number isCancelledError
  then mkRequest (req_values st) (req_status st) (S (call_ends st))
  else req_error e st.

Definition on_call_end (st : request_state) : request_state :=
  req_complete st.

End RequestStream.

(** *** [createRequestStreamMethod]: the reply when the method is not
    response-streaming

    The operators of [rxjs] act on what the result of the handler does,
    up to its terminal notification. *)

Section RequestStreamReply.

Context {E : Type}.

(** What happens while the reply is awaited: the result notifies, or the
    call emits [CANCEL_EVENT]. *)
Inductive reply_event : Type :=
| Result (n : notification jsval E)
| Cancelled.

(** [takeUntil(fromEvent(call, CANCEL_EVENT))] *)
Fixpoint takeUntil (evs : list reply_event) : list (notification jsval E) :=
  match evs with
  | [] => []
  | Cancelled :: _ => [Complete]
  | Result (Next v) :: rest => Next v :: takeUntil rest
  | Result terminal :: _ => [terminal]
  end.

(** [catchError(err => { callback(err, null); return EMPTY; })]: the
    callback invocations it makes, and what it passes on. *)
Fixpoint catchError (ns : list (notification jsval E))
  : list (callback_call jsval E) * list (notification jsval E) :=
  match ns with
  | [] => ([], [])
  | Next v :: rest =>
      let '(cbs, out) := catchError rest in (cbs, Next v :: out)
  | Error err :: _ => ([CbError err], [Complete])
  | Complete :: _ => ([], [Complete])
  end.

(** [defaultIfEmpty(d)] *)
Fixpoint defaultIfEmpty_from (hasValue : bool) (d : jsval)
    (ns : list (notification jsval E)) : list (notification jsval E) :=
  match ns with
  | [] => []
  | Next v :: rest => Next v :: defaultIfEmpty_from true d rest
  | Error err :: _ => [Error err]
  | Complete :: _ => if hasValue then [Complete] else [Next d; Complete]
  end.

Definition defaultIfEmpty : jsval -> list (notification jsval E) ->
                            list (notification jsval E) :=
  defaultIfEmpty_from false.

(** [lastValueFrom]: how the promise settles. *)
Inductive settlement : Type :=
| Fulfilled (v : jsval)
| RejectedWith (err : E)
| RejectedEmpty
| Unsettled.

Fixpoint lastValueFrom_from (last : option jsval)
    (ns : list (notification jsval E)) : settlement :=
  match ns with
  | [] => Unsettled
  | Next v :: rest => lastValueFrom_from (Some v) rest
  | Error err :: _ => RejectedWith err
  | Complete :: _ =>
      match last with
      | Some v => Fulfilled v
      | None => RejectedEmpty
      end
  end.

Definition lastValueFrom : list (notification jsval E) -> settlement :=
  lastValueFrom_from None.

(** The callback invocations of the branch [else] of
    [if (isResponseStream)]. *)
Definition request_stream_reply (evs : list reply_event)
  : list (callback_call jsval E) :=
  let '(cbs, piped) := catchError (takeUntil evs) in
  match lastValueFrom (defaultIfEmpty JUndefined piped) with
  | Fulfilled response =>
      if negb (isUndefined response) then cbs ++ [CbValue response] else cbs
  | _ => cbs
  end.

(** A result that emits the values [vs], one after the other. *)
Definition values (vs : list jsval) : list reply_event :=
  map (fun v => Result (Next v)) vs.

End RequestStreamReply.

End Adapters.

(** ** Service discovery: [getServiceNames] *)

Module Discovery.

Import Js.

Definition parseDeepServiceName (name key : string) : string :=
  if Nat.eqb (String.length name) 0 then key
  else name ++ "." ++ key.

(** The test [isServiceDefined && isServiceBoolean] of the loop body. *)
Definition isService (deepDefinition : jsval) : bool :=
  let isServiceDefined :=
    truthy deepDefinition && negb (isUndefined (get deepDefinition "service")) in
  let isServiceBoolean :=
    if isServiceDefined
    then strict_ne_false (get deepDefinition "service")
    else false in
  isServiceDefined && isServiceBoolean.

(** An object is given by its entries, in the order of [Object.keys]; the
    loop is a left fold over them. *)
Fixpoint collectDeepServices (name : string) (grpcDefinition : jsval)
    (accumulator : list (string * jsval)) : list (string * jsval) :=
  match grpcDefinition with
  | JObject props =>
      fold_left
        (fun accumulator entry =>
           let nameExtended := parseDeepServiceName name (fst entry) in
           let deepDefinition := snd entry in
           if isService deepDefinition
           then (accumulator ++ [(nameExtended, deepDefinition)])%list
           else collectDeepServices nameExtended deepDefinition accumulator)
        props accumulator
  | _ => accumulator
  end.

Definition getServiceNames (grpcPkg : jsval) : list (string * jsval) :=
  collectDeepServices EmptyString grpcPkg [].

(** *** Vocabulary of the statements about the walk *)

(** The body of the loop, for the name the walk has reached. *)
Definition loop_body (name : string) (accumulator : list (string * jsval))
    (entry : string * jsval) : list (string * jsval) :=
  if isService (snd entry)
  then (accumulator ++ [(parseDeepServiceName name (fst entry), snd entry)])%list
  else collectDeepServices (parseDeepServiceName name (fst entry)) (snd entry)
         accumulator.

(** The name the walk gives to the node at [path] below a node named
    [name]. *)
Definition names_from (name : string) (path : list string) : string :=
  fold_left parseDeepServiceName path name.

(** [root.k1.k2...] *)
Definition node_at (root : jsval) (path : list string) : jsval :=
  fold_left get path root.

(** No key of the tree is the empty string. *)
Fixpoint keys_nonempty (v : jsval) : bool :=
  match v with
  | JObject props | JFunction props =>
      forallb (fun kv => negb (String.eqb (fst kv) EmptyString) && keys_nonempty (snd kv))
              props
  | _ => true
  end.

(** [outermost_service root path svc]: [svc] carries a service definition
    and is reached from the object [root] along [path], through objects
    that carry none. *)
Inductive outermost_service : jsval -> list string -> jsval -> Prop :=
| service_child props key svc :
    In (key, svc) props -> isService svc = true ->
    outermost_service (JObject props) [key] svc
| service_below props key child path svc :
    In (key, child) props -> isService child = false ->
    outermost_service child path svc ->
    outermost_service (JObject props) (key :: path) svc.

(** *** A loaded package whose name has a component [service] *)

Definition greeter : jsval :=
  JFunction
    [("service",
      JObject [("SayHello",
                JObject [("path", JString "/greet.service.Greeter/SayHello")])])].

Definition package_named_service : jsval :=
  JObject [("greet", JObject [("service", JObject [("Greeter", greeter)])])].

End Discovery.

(** ** Vocabulary for the laws of the writer *)

Module WriterTrace.

Import Writer.

Section Trace.

Context {T E : Type}.

(** The values the observer receives: those the producer emits before its
    first [error] or [complete], and before a cancellation unsubscribes. *)
Fixpoint received (evs : list (event T E)) : list T :=
  match evs with
  | [] => []
  | Notify (Next v) :: rest => v :: received rest
  | Drain :: rest => received rest
  | Notify _ :: _ | Cancel :: _ => []
  end.

Definition is_error (ev : event T E) : bool :=
  match ev with Notify (Error _) => true | _ => false end.

Definition no_error (evs : list (event T E)) : bool :=
  forallb (fun ev => negb (is_error ev)) evs.

(** The events that leave the subscriber open. *)
Definition keeps_open (ev : event T E) : bool :=
  match ev with Notify (Next _) | Drain => true | _ => false end.

(** What the writer holds of the received values: written, or waiting. *)
Definition held (st : @state T E) : list T := (written st ++ buffer st)%list.

(** The value an event hands to the observer, if it does. *)
Definition arrival (st : @state T E) (ev : event T E) : list T :=
  if subscribed st
  then match ev with Notify (Next v) => [v] | _ => [] end
  else [].

(** The buffer is used only while the writer waits for a drain. *)
Definition in_order (st : @state T E) : Prop :=
  clearToWrite st = true -> buffer st = [].

(** How an invocation stands, as its promise tells. *)
Definition outcome (st : @state T E) : Prop :=
  match promise st with
  | Pending => ended st = 0 /\ errors st = [] /\ cancelOn st = true
  | Resolved => ended st = 1 /\ errors st = [] /\ cancelOn st = false
  | Rejected e => ended st = 0 /\ errors st = [e] /\ cancelOn st = false
  end.

End Trace.

End WriterTrace.

(** ** Reading back the text of a pattern; registrations *)

Module RegistryCodec.

Import Js Registry Binder.

Definition hex_value (c : ascii) : option nat :=
  let n := nat_of_ascii c in
  if Nat.leb 48 n && Nat.leb n 57 then Some (n - 48)
  else if Nat.leb 97 n && Nat.leb n 102 then Some (n - 87)
  else None.

(** Reads back one character written by [quote_char], and gives the rest
    of the text; nothing at a closing quote. *)
Definition unquote_char (s : string) : option (ascii * string) :=
  match s with
  | EmptyString => None
  | String c rest =>
      if Ascii.eqb c "\"%char then
        match rest with
        | String d rest' =>
            if Ascii.eqb d "b"%char then Some (ascii_of_nat 8, rest')
            else if Ascii.eqb d "t"%char then Some (ascii_of_nat 9, rest')
            else if Ascii.eqb d "n"%char then Some (ascii_of_nat 10, rest')
            else if Ascii.eqb d "f"%char then Some (ascii_of_nat 12, rest')
            else if Ascii.eqb d "r"%char then Some (ascii_of_nat 13, rest')
            else if Ascii.eqb d dquote then Some (dquote, rest')
            else if Ascii.eqb d "\"%char then Some ("\"%char, rest')
            else if Ascii.eqb d "u"%char then
              match rest' with
              | String _ (String _ (String h (String l rest''))) =>
                  match hex_value h, hex_value l with
                  | Some a, Some b => Some (ascii_of_nat (16 * a + b), rest'')
                  | _, _ => None
                  end
              | _ => None
              end
            else None
        | EmptyString => None
        end
      else if Ascii.eqb c dquote then None
      else Some (c, rest)
  end.

(** The text [JSON.stringify] writes for one property. *)
Definition entry (kv : string * string) : string :=
  quote (fst kv) ++ ":" ++ quote (snd kv).

(** Whether two keys are the same key for the registry: two key objects
    when they list the same properties with the same values in the same
    order, two strings when they are equal, a string and an object when
    the string is the JSON text of the object. *)
Definition same_key (k1 k2 : pattern) : bool :=
  match k1, k2 with
  | PatObject p1, PatObject p2 => bool_decide (p1 = p2)
  | PatString s1, PatString s2 => String.eqb s1 s2
  | PatString s, PatObject p | PatObject p, PatString s =>
      String.eqb s (stringify p)
  end.

(** A registration made for a decorated method: the key object
    [{service, rpc, streaming}] and the handler. *)
Record registration : Type := mkRegistration {
  reg_service : string;
  reg_rpc : string;
  reg_streaming : GrpcMethodStreamingType;
  reg_handler : handler
}.

(** The registry after [addHandler] has been called for each
    registration, in order. *)
Definition register_all (regs : list registration) : server :=
  fold_left
    (fun srv r =>
       addHandler (canonical (reg_service r) (reg_rpc r) (reg_streaming r))
                  (reg_handler r) false srv)
    regs empty_server.

(** The handler an adapter was created around. *)
Definition handler_of (a : adapter) : handler :=
  match a with
  | UnaryServiceMethod h | StreamServiceMethod h
  | RequestStreamMethod h _ | StreamCallMethod h _ => h
  end.

End RegistryCodec.

(** ** [createRequestStreamMethod]: the listeners over a run of events *)

Module AdaptersMore.

Import Js Adapters.

Section ReplyVocabulary.

Context {E : Type}.

(** The callback for the last value of a result, unless there is none or
    it is [undefined]. *)
Definition last_defined (vs : list jsval) : list (callback_call jsval E) :=
  match last vs with
  | Some v => if isUndefined v then [] else [CbValue v]
  | None => []
  end.

End ReplyVocabulary.

Section RequestEvents.

Context {M : Type}.

(** The events of the call the adapter listens to:
    [call.on('data', ...)], [call.on('error', ...)], [call.on('end', ...)]. *)
Inductive call_event : Type :=
| CallData (m : M)
| CallError (e : error)
| CallEnd.

Definition request_step (st : @request_state M) (ev : call_event)
  : request_state :=
  match ev with
  | CallData m => on_call_data m st
  | CallError e => on_call_error e st
  | CallEnd => on_call_end st
  end.

Definition request_run (evs : list call_event) : request_state :=
  fold_left request_step evs request_init.

(** The errors whose text begins with [cancelled], in any letter case. *)
Definition passed_on (e : error) : bool :=
  startsWith (toLowerCase (String_of e)) "cancelled".

Definition closes (ev : call_event) : bool :=
  match ev with
  | CallData _ => false
  | CallError e => passed_on e
  | CallEnd => true
  end.

(** The messages that arrive before the first closing event. *)
Fixpoint data_before_close (evs : list call_event) : list M :=
  match evs with
  | [] => []
  | ev :: rest =>
      if closes ev then []
      else match ev with
           | CallData m => m :: data_before_close rest
           | _ => data_before_close rest
           end
  end.

(** The number of error events whose text does not begin with
    [cancelled]. *)
Fixpoint swallowed (evs : list call_event) : nat :=
  match evs with
  | [] => 0
  | CallError e :: rest => (if passed_on e then 0 else 1) + swallowed rest
  | _ :: rest => swallowed rest
  end.

End RequestEvents.

End AdaptersMore.

(** ** Packages: [lookupPackage], [createServices] and the loop of
    [bindEvents] *)

Module Packages.

Import Js Discovery.

(** [packageName.split(/\./)] *)
Fixpoint split_dots (s : string) : list string :=
  match s with
  | EmptyString => [EmptyString]
  | String c rest =>
      if Ascii.eqb c "."%char then EmptyString :: split_dots rest
      else match split_dots rest with
           | part :: parts => String c part :: parts
           | [] => [String c EmptyString]
           end
  end.

(** The own property of that name among the listed ones, if there is
    one. *)
Fixpoint own_prop (key : string) (props : list (string * jsval))
  : option jsval :=
  match props with
  | [] => None
  | (k, v) :: rest => if String.eqb k key then Some v else own_prop key rest
  end.

Definition nullish (v : jsval) : bool :=
  match v with JUndefined | JNull => true | _ => false end.

(** What a value has under a name besides its listed properties. *)
Inductive builtin : Type :=
| Absent
| Present (v : jsval)
| Throwing.

Section Reading.

(** Taken as a parameter: what a value has under a name without it being
    one of its listed own properties, that is, what it inherits along its
    prototype chain (the members of [Object.prototype] and
    [Function.prototype]) or has built in (the [length] and the
    characters of a string, the [name] of a function): nothing, a value,
    or an accessor that throws a [TypeError] when read (the [caller] and
    [arguments] of a strict function). *)
Variable inherited : jsval -> string -> builtin.

(** The listed own property of that name, if the value has one. *)
Definition own (pkg : jsval) (name : string) : option jsval :=
  match pkg with
  | JObject props | JFunction props => own_prop name props
  | _ => None
  end.

(** Whether [pkg[name]] throws a [TypeError]: on [undefined] and [null],
    and where the name leads to a throwing accessor. *)
Definition throws (pkg : jsval) (name : string) : bool :=
  nullish pkg ||
  match own pkg name, inherited pkg name with
  | None, Throwing => true
  | _, _ => false
  end.

(** The value of [pkg[name]] where it does not throw: the own property
    first, then the inherited one, else [undefined]. *)
Definition read (pkg : jsval) (name : string) : jsval :=
  match own pkg name, inherited pkg name with
  | Some v, _ => v
  | None, Present v => v
  | None, _ => JUndefined
  end.

(** [pkg[name]], [None] where it throws. *)
Definition member (pkg : jsval) (name : string) : option jsval :=
  if throws pkg name then None else Some (read pkg name).

Definition lookupPackage (root : jsval) (packageName : string)
  : option jsval :=
  fold_left
    (fun pkg name => match pkg with Some p => member p name | None => None end)
    (split_dots packageName) (Some root).

(** The value reached by reading the keys of [path] one after the
    other. *)
Definition reach (root : jsval) (path : list string) : jsval :=
  fold_left read path root.

(** The reads made along [path]: each key with the value it is read
    from, which is the root for the first key and the value reached so
    far for the others. *)
Fixpoint reads (root : jsval) (path : list string) : list (jsval * string) :=
  match path with
  | [] => []
  | key :: rest => (root, key) :: reads (read root key) rest
  end.

(** No read along [path] throws. *)
Definition readable (root : jsval) (path : list string) : bool :=
  forallb (fun r => negb (throws r.1 r.2)) (reads root path).

(** Every read along [path] is made from a value that is neither
    [undefined] nor [null] and finds nothing besides the listed
    properties. *)
Fixpoint own_reads (root : jsval) (path : list string) : bool :=
  match path with
  | [] => true
  | key :: rest =>
      negb (nullish root) &&
      match inherited root key with
      | Absent => own_reads (get root key) rest
      | _ => false
      end
  end.

End Reading.

Inductive startup_error : Type :=
| TypeError
| InvalidGrpcPackageException (packageName : string).

(** [createServices]: the exception it throws, or the services it creates:
    for each definition found, the name and the [definition.service.service]
    that are handed to [createService]. *)
Definition createServices (grpcPkg : jsval) (packageName : string)
  : startup_error + list (string * jsval) :=
  if negb (truthy grpcPkg) then inl (InvalidGrpcPackageException packageName)
  else inr (map (fun definition =>
                   (fst definition, get (snd definition) "service"))
                (getServiceNames grpcPkg)).

(** One round of the loop over the package names in [bindEvents]. *)
Definition bind_package (inherited : jsval -> string -> builtin)
    (grpcContext : jsval) (packageName : string)
  : startup_error + list (string * jsval) :=
  match lookupPackage inherited grpcContext packageName with
  | None => inl TypeError
  | Some grpcPkg => createServices grpcPkg packageName
  end.

(** A part of what values have built in: three of the methods every
    value inherits from [Object.prototype], and the throwing [caller] of
    a function. *)
Definition sample_builtins (v : jsval) (name : string) : builtin :=
  if String.eqb name "toString" || String.eqb name "valueOf"
     || String.eqb name "constructor"
  then Present (JFunction [])
  else match v with
       | JFunction _ => if String.eqb name "caller" then Throwing else Absent
       | _ => Absent
       end.

Fixpoint dot_free (s : string) : bool :=
  match s with
  | EmptyString => true
  | String c rest => negb (Ascii.eqb c "."%char) && dot_free rest
  end.

(** A found service, renamed as found below [prefix]. *)
Definition qualify (prefix : string) (found : string * jsval)
  : string * jsval :=
  (prefix ++ "." ++ fst found, snd found).

End Packages.

(** ** [close] and the channel options of [createClient] *)

Module Lifecycle.

Import Js.

Inductive shutdown_call : Type :=
| TryShutdown
| ForceShutdown.

Record transport : Type := mkTransport {
  (* [this.grpcClient] is set *)
  grpcClient : bool;
  (* the shutdown operations invoked on the server, oldest first *)
  shutdowns : list shutdown_call
}.

Inductive closing (E : Type) : Type :=
| Closed
| CloseFailed (error : E).
Arguments Closed {E}.
Arguments CloseFailed {E} error.

(** [graceful] is the option [gracefulShutdown]; [answer] is the error the
    server passes to the callback of [tryShutdown], if any. *)
Definition close {E : Type} (graceful : bool) (answer : option E)
    (st : transport) : closing E * transport :=
  if grpcClient st then
    if graceful then
      match answer with
      | Some error =>
          (CloseFailed error, mkTransport true (shutdowns st ++ [TryShutdown]))
      | None => (Closed, mkTransport false (shutdowns st ++ [TryShutdown]))
      end
    else (Closed, mkTransport false (shutdowns st ++ [ForceShutdown]))
  else (Closed, mkTransport false (shutdowns st)).

Record client_options : Type := mkOptions {
  channelOptions : option (gmap string jsval);
  maxSendMessageLength : option Z;
  maxReceiveMessageLength : option Z;
  maxMetadataSize : option Z
}.

(** [if (this.options && this.options.limit) channelOptions[key] = limit] *)
Definition set_limit (key : string) (limit : option Z)
    (channel : gmap string jsval) : gmap string jsval :=
  match limit with
  | Some n => if truthy_number n then <[key := JNumber n]> channel else channel
  | None => channel
  end.

(** The channel options [createClient] hands to the server. *)
Definition channel_options (options : option client_options)
  : gmap string jsval :=
  match options with
  | None => ∅
  | Some o =>
      let channel := default ∅ (channelOptions o) in
      let channel :=
        set_limit "grpc.max_send_message_length" (maxSendMessageLength o)
                  channel in
      let channel :=
        set_limit "grpc.max_receive_message_length"
                  (maxReceiveMessageLength o) channel in
      set_limit "grpc.max_metadata_size" (maxMetadataSize o) channel
  end.

(** The entry a limit option writes, if it writes one. *)
Definition effective (limit : option Z) : option jsval :=
  match limit with
  | Some n => if truthy_number n then Some (JNumber n) else None
  | None => None
  end.

End Lifecycle.

(** * Properties *)

(** ** The stream writer *)

Module WriterProps.

Import Writer.

Section WriterFacts.

Context {T E : Type} (accepts : nat -> bool).

Local Abbreviation step := (step (T:=T) (E:=E) accepts).
Local Abbreviation run := (run (T:=T) (E:=E) accepts).
Local Abbreviation sstep := (stream_service_step (T:=T) (E:=E) accepts).

Lemma run_app (st : state) (a b : list (event T E)) :
  run st (a ++ b) = run (run st a) b.
Proof. apply fold_left_app. Qed.

Lemma run_snoc (st : state) (a : list (event T E)) (ev : event T E) :
  run st (a ++ [ev]) = step (run st a) ev.
Proof. now rewrite run_app. Qed.

Lemma snoc_not_nil {A : Type} (l : list A) (x : A) : (l ++ [x])%list <> [].
Proof. by destruct l. Qed.

Lemma inv_init : inv (T:=T) (E:=E) init.
Proof. split; cbn; intros; done. Qed.

Lemma step_inv (st : state) (ev : event T E) : inv st -> inv (step st ev).
Proof.
  intros [Hl Hs Hv Hc He Hd]. break_state st. cbn in *.
  destruct ev as [[v|e|]| |]; unfold_writer.
  all: repeat (case_match; subst; cbn in *); split; cbn; intros;
    try done; try (right; apply snoc_not_nil); try (left; lia);
    try solve [intuition congruence]; try solve [intuition lia].
Qed.

Lemma run_inv (st : state) (evs : list (event T E)) :
  inv st -> inv (run st evs).
Proof.
  revert st. induction evs as [|ev evs IH]; intros st Hst; [done|].
  cbn. apply IH. by apply step_inv.
Qed.

Lemma reachable_inv (evs : list (event T E)) :
  inv (writeObservableToGrpc accepts evs).
Proof. apply run_inv, inv_init. Qed.

Lemma sstep_inv (st : state) (ev : event T E) : inv st -> inv (sstep st ev).
Proof.
  intros Hst. pose proof (step_inv st ev Hst) as Hst'.
  unfold stream_service_step.
  destruct (promise st); try exact Hst'.
  destruct (promise (step st ev)) eqn:Hp; try exact Hst'.
  destruct Hst' as [Hl Hs Hv Hc He Hd].
  split; unfold call_emit_error; cbn [buffer isComplete clearToWrite drainOn
    cancelOn subscribed promise written ended errors]; try done.
  - intros Hc'. destruct (Hv Hc') as (_ & Hp' & _). rewrite Hp in Hp'.
    discriminate.
  - intros _. right. apply snoc_not_nil.
Qed.

Lemma adapter_inv (evs : list (event T E)) :
  inv (createStreamServiceMethod accepts evs).
Proof.
  unfold createStreamServiceMethod.
  assert (H : forall st, inv st -> inv (fold_left sstep evs st)).
  { induction evs as [|ev evs IH]; intros st Hst; [done|].
    cbn. apply IH. by apply sstep_inv. }
  apply H, inv_init.
Qed.

(** Once both listeners are removed and the subscriber is closed, no
    event changes anything. *)
Lemma torn_down_step (st : state) (ev : event T E) :
  torn_down st -> step st ev = st.
Proof.
  intros (Hs & Hd & Hc).
  destruct ev as [n| |]; cbn; by rewrite ?Hs, ?Hd, ?Hc.
Qed.

Lemma torn_down_run (st : state) (evs : list (event T E)) :
  torn_down st -> run st evs = st.
Proof.
  intros Hst. induction evs as [|ev evs IH]; [done|].
  cbn. rewrite torn_down_step by done. apply IH.
Qed.

Lemma torn_down_sstep (st : state) (ev : event T E) :
  torn_down st -> sstep st ev = st.
Proof.
  intros Hst. unfold stream_service_step. rewrite torn_down_step by done.
  by destruct (promise st).
Qed.

(** The listeners are registered exactly as long as the call has neither
    been ended nor received an error from the writer. *)
Lemma live_iff (evs : list (event T E)) :
  let st := writeObservableToGrpc accepts evs in
  cancelOn st = true <-> ended st = 0 /\ errors st = [].
Proof.
  intros st. pose proof (reachable_inv evs) as Hinv. fold st in Hinv. split.
  - intros Hlive. by destruct (inv_live _ Hinv Hlive) as (? & _ & ?).
  - intros [Hz He]. destruct (cancelOn st) eqn:Hc; [done|].
    destruct (inv_dead _ Hinv Hc); congruence.
Qed.

(** [call.end()] is never invoked twice. *)
Lemma ended_at_most_once (evs : list (event T E)) :
  ended (writeObservableToGrpc accepts evs) <= 1.
Proof.
  pose proof (inv_ended _ (reachable_inv evs)) as He.
  destruct (ended (writeObservableToGrpc accepts evs)) as [|n]; [lia|].
  destruct He as (-> & _); [done | lia].
Qed.

Lemma flushed_step (st : state) (ev : event T E) :
  inv st -> is_cancel ev = false ->
  (ended st <> 0 -> buffer st = []) ->
  ended (step st ev) <> 0 -> buffer (step st ev) = [].
Proof.
  intros [Hl Hs Hv Hc He Hd] Hev Hfl. break_state st. cbn in *.
  destruct ev as [[v|e|]| |]; try discriminate; unfold_writer.
  all: repeat (case_match; subst; cbn in *); intros; try done;
    try (by apply Hfl); try (exfalso; intuition congruence).
Qed.

(** Without a cancellation, [call.end()] is invoked only when no value is
    left in the buffer. *)
Lemma ended_only_when_flushed (evs : list (event T E)) :
  no_cancel evs = true ->
  ended (writeObservableToGrpc accepts evs) <> 0 ->
  buffer (writeObservableToGrpc accepts evs) = [].
Proof.
  unfold writeObservableToGrpc.
  induction evs as [|ev evs IH] using rev_ind; [done|].
  unfold no_cancel. rewrite forallb_app, andb_true_iff. cbn.
  rewrite andb_true_r, negb_true_iff. intros [Hevs Hev].
  rewrite run_snoc.
  apply flushed_step; [apply reachable_inv | done | by apply IH].
Qed.

(** After the source has finished, a writer that is clear to write reacts
    to nothing but a cancellation: its drain handler does nothing. *)
Lemma stalled_step (st : state) (ev : event T E) :
  subscribed st = false -> clearToWrite st = true -> is_cancel ev = false ->
  step st ev = st.
Proof.
  intros Hs Hc Hev. destruct ev as [n| |]; try discriminate; cbn.
  - by rewrite Hs.
  - unfold drainHandler. rewrite Hc. by destruct (drainOn st).
Qed.

Lemma stalled_run (st : state) (evs : list (event T E)) :
  subscribed st = false -> clearToWrite st = true -> no_cancel evs = true ->
  run st evs = st.
Proof.
  intros Hs Hc. induction evs as [|ev evs IH]; [done|].
  cbn. rewrite andb_true_iff, negb_true_iff. intros [Hev Hevs].
  rewrite stalled_step by done. by apply IH.
Qed.

(** A drain-time write that the call accepts leaves the writer clear to
    write while the rest of the buffer waits: the next value overtakes
    it. *)
Lemma accepted_drain_write_overtaken (pre : list (event T E))
    (b1 b2 v : T) (rest : list T) :
  let st := writeObservableToGrpc accepts pre in
  subscribed st = true -> clearToWrite st = false ->
  buffer st = b1 :: b2 :: rest ->
  accepts (length (written st)) = true ->
  let st' := run st [Drain; Notify (Next v)] in
  written st' = (written st ++ [b1; v])%list /\ buffer st' = b2 :: rest.
Proof.
  intros st Hsub Hclr Hbuf Hacc st'.
  pose proof (reachable_inv pre) as Hinv. fold st in Hinv.
  pose proof (inv_subscribed _ Hinv Hsub) as Hlive.
  pose proof (inv_listeners _ Hinv) as Hdrain. rewrite Hlive in Hdrain.
  subst st'. cbn. rewrite Hdrain. unfold drainHandler. rewrite Hclr. cbn.
  rewrite Hbuf. cbn. rewrite Hsub. unfold on_next. cbn. rewrite Hacc. cbn.
  by rewrite <- app_assoc.
Qed.

(** C8. Cancellation teardown.  When the cancellation signal reaches an
    invocation that is still running (its cancel listener is registered),
    whatever the buffer holds: [call.end()] is invoked at that moment and
    had not been before, nothing is written and the buffer is left as it
    was, the subscription to the producer is released, and neither a
    second cancellation nor any later event changes anything, so no
    buffered value is ever written afterwards. *)
Theorem cancel_teardown (pre post : list (event T E)) :
  let st := writeObservableToGrpc accepts pre in
  cancelOn st = true ->
  let st' := step st Cancel in
  ended st = 0 /\ ended st' = 1 /\
  written st' = written st /\ buffer st' = buffer st /\
  subscribed st' = false /\
  step st' Cancel = st' /\
  run st' post = st'.
Proof.
  intros st Hlive st'.
  destruct (inv_live _ (reachable_inv pre) Hlive) as (Hz & _ & _).
  fold st in Hz.
  assert (Hst' : st' = cancelHandler st) by (subst st'; cbn; by rewrite Hlive).
  assert (Htd : torn_down st') by (by rewrite Hst').
  split_and!.
  - exact Hz.
  - rewrite Hst'. cbn. by rewrite Hz.
  - by rewrite Hst'.
  - by rewrite Hst'.
  - by rewrite Hst'.
  - by apply torn_down_step.
  - by apply torn_down_run.
Qed.

(** C3. A producer error in a server-streaming call.  When the producer
    errors while the adapter of [createStreamServiceMethod] is subscribed,
    ['error'] is emitted on the call twice with that error, once by the
    error handler of the writer and once by the [catch] of the adapter;
    nothing is written at the error, and no later event changes anything,
    so no buffered value is written afterwards. *)
Theorem producer_error_emitted_twice (pre post : list (event T E)) (e : E) :
  let st := createStreamServiceMethod accepts pre in
  subscribed st = true ->
  let st' := sstep st (Notify (Error e)) in
  errors st = [] /\ errors st' = [e; e] /\ written st' = written st /\
  fold_left sstep post st' = st'.
Proof.
  intros st Hsub st'.
  pose proof (adapter_inv pre) as Hinv. fold st in Hinv.
  pose proof (inv_subscribed _ Hinv Hsub) as Hlive.
  destruct (inv_live _ Hinv Hlive) as (_ & Hp & He).
  assert (Hst' : st' = call_emit_error e (on_error e (unsubscribe st))).
  { subst st'. unfold stream_service_step. cbn. rewrite Hsub, Hp.
    assert (Hr : promise (on_error e (unsubscribe st)) = Rejected e)
      by (cbn; by rewrite Hp).
    by rewrite Hr. }
  assert (Htd : torn_down st') by (by rewrite Hst').
  split_and!.
  - exact He.
  - rewrite Hst'. cbn. by rewrite He.
  - by rewrite Hst'.
  - clear Hst'. induction post as [|ev post IH]; [done|].
    cbn. by rewrite torn_down_sstep.
Qed.

End WriterFacts.

Lemma cancel_teardown_witness :
  cancelOn (writeObservableToGrpc (backpressure_at [0])
              [value 1; value 2; value 3]) = true /\
  written (run (backpressure_at [0])
             (step (backpressure_at [0])
                (writeObservableToGrpc (backpressure_at [0])
                   [value 1; value 2; value 3]) Cancel)
             [Drain; Cancel; Drain]) = [1].
Proof.
  split; [reflexivity|].
  destruct (cancel_teardown (backpressure_at [0])
              [value 1; value 2; value 3] [Drain; Cancel; Drain] eq_refl)
    as (_ & _ & _ & _ & _ & _ & Hpost).
  exact (f_equal written Hpost).
Defined.

Lemma producer_error_emitted_twice_witness :
  subscribed (createStreamServiceMethod (fun _ => true) [value 1]) = true /\
  errors (stream_service_step (fun _ => true)
            (createStreamServiceMethod (fun _ => true) [value 1])
            (Notify (Error "boom"))) = ["boom"; "boom"].
Proof.
  split; [reflexivity|].
  apply (producer_error_emitted_twice (fun _ => true) [value 1] [] "boom").
  reflexivity.
Defined.

(** C1. The order of the writes under backpressure.  The producer emits
    1, 2, 3, 4 and completes; the first write reports backpressure, so 2
    and 3 are buffered; the drain handler writes 2, that write is
    accepted, and 4, arriving next, is written at once, ahead of the
    buffered 3.  The call receives 1, 2, 4, 3 and is ended, without any
    cancellation or error. *)
Theorem fifo_order_broken :
  let evs := [value 1; value 2; value 3; Drain; value 4; Drain;
              Notify Complete] in
  let st := writeObservableToGrpc (backpressure_at [0; 2]) evs in
  emissions evs = [1; 2; 3; 4] /\ written st = [1; 2; 4; 3] /\
  ended st = 1 /\ errors st = [] /\ written st <> emissions evs.
Proof. cbv zeta. split_and!; try reflexivity. discriminate. Qed.

(** C2. Completion with one value buffered.  The producer completes while
    the value 2 is buffered; the drain handler writes it and the write is
    accepted.  From then on, whatever happens short of a cancellation,
    [call.end()] is never invoked and the promise stays pending: the
    buffer is empty and the source complete, but the drain handler only
    acts when the last write reported backpressure. *)
Theorem completion_never_ends_call (later : list (event nat string)) :
  no_cancel later = true ->
  let st := writeObservableToGrpc (backpressure_at [0])
              ([value 1; value 2; Notify Complete; Drain] ++ later) in
  written st = [1; 2] /\ buffer st = [] /\ isComplete st = true /\
  ended st = 0 /\ promise st = Pending.
Proof.
  intros Hlater st. subst st. unfold writeObservableToGrpc.
  rewrite run_app, stalled_run by done. by split_and!.
Qed.

Lemma completion_never_ends_call_witness :
  no_cancel (T:=nat) (E:=string) [Drain; Notify (Next 3); Drain] = true /\
  ended (writeObservableToGrpc (backpressure_at [0])
           ([value 1; value 2; Notify Complete; Drain] ++
            [Drain; Notify (Next 3); Drain])) = 0.
Proof.
  split; [reflexivity|].
  apply (completion_never_ends_call [Drain; Notify (Next 3); Drain]).
  reflexivity.
Defined.

End WriterProps.

(** ** The pattern registry *)

Module RegistryProps.

Import Js Registry.

Lemma route_of_canonical (service methodName : string)
    (streaming : GrpcMethodStreamingType) :
  route_of (canonical service methodName streaming)
  = createPattern service methodName streaming.
Proof. reflexivity. Qed.

(** [addHandler] stores the reference it is given and records the flag on
    the handler object. *)
Lemma addHandler_flag (srv : server) (h : handler) (isEvent : bool)
    (k : pattern) :
  isEventHandler (addHandler k h isEvent srv) !! h = Some isEvent.
Proof. unfold addHandler. cbn. apply lookup_insert_eq. Qed.

(** A registration leaves the other routes as they were. *)
Lemma lookup_other_route (srv : server) (h : handler) (isEvent : bool)
    (k : pattern) (route : string) :
  route_of k <> route ->
  lookup_handler route (addHandler k h isEvent srv) = lookup_handler route srv.
Proof. intros Hne. unfold lookup_handler, addHandler. cbn. by apply lookup_insert_ne. Qed.

(** C7, the counterexample.  Two key objects hold the same service, rpc
    and streaming values, the first listing [rpc] before [service]: a
    handler registered under the first is not found under the second. *)
Lemma key_order_matters :
  let k1 := [("rpc", "Hello"); ("service", "GreetService");
             ("streaming", "no_stream")] in
  let k2 := [("service", "GreetService"); ("rpc", "Hello");
             ("streaming", "no_stream")] in
  same_components k1 k2 /\
  lookup_handler (route_of (PatObject k2))
    (addHandler (PatObject k1) 1 false empty_server) = None /\
  ~ (forall (h : handler) (k1 k2 : list (string * string)),
       same_components k1 k2 ->
       lookup_handler (route_of (PatObject k2))
         (addHandler (PatObject k1) h false empty_server) = Some h).
Proof.
  cbv zeta. split_and!.
  - by repeat split.
  - vm_compute. reflexivity.
  - intros H.
    specialize (H 1 [("rpc", "Hello"); ("service", "GreetService");
                     ("streaming", "no_stream")]
                    [("service", "GreetService"); ("rpc", "Hello");
                     ("streaming", "no_stream")]).
    assert (Hs : same_components
              [("rpc", "Hello"); ("service", "GreetService");
               ("streaming", "no_stream")]
              [("service", "GreetService"); ("rpc", "Hello");
               ("streaming", "no_stream")]) by (by repeat split).
    specialize (H Hs). vm_compute in H. discriminate.
Qed.

End RegistryProps.

(** ** The service binder *)

Module BinderProps.

Import Js Registry Binder.

(** When no handler is found under the method name, the binder looks once
    more, under the original name, with the streaming type it tried last:
    pass-through for a request-streaming method, none otherwise. *)
Lemma bind_method_fallback (srv : server) (name methodName : string)
    (d : MethodDefinition) :
  fst (lookup_by_methodName srv name methodName d) = None ->
  methodName <> originalName d ->
  let kind := if requestStream d then PT_STREAMING else NO_STREAMING in
  bind_method srv name methodName d =
    (fun h => createServiceMethod h d kind) <$>
      lookup_handler (createPattern name (originalName d) kind) srv.
Proof.
  intros Hnone Hne kind. unfold bind_method.
  assert (Hk : snd (lookup_by_methodName srv name methodName d) = kind).
  { unfold lookup_by_methodName in *. subst kind.
    destruct (requestStream d); [|done].
    by destruct (lookup_handler (createPattern name methodName RX_STREAMING) srv). }
  destruct (lookup_by_methodName srv name methodName d) as [mh k].
  cbn in *. subst.
  apply String.eqb_neq in Hne. rewrite Hne. cbn.
  by destruct (lookup_handler _ srv).
Qed.

Lemma bind_method_fallback_witness :
  bind_method
    (addHandler (canonical "ChatService" "chat" PT_STREAMING) 1 false
       empty_server)
    "ChatService" "Chat" (mkMethod true true "chat")
  = Some (StreamCallMethod 1 true).
Proof.
  rewrite (bind_method_fallback
             (addHandler (canonical "ChatService" "chat" PT_STREAMING) 1 false
                empty_server)
             "ChatService" "Chat" (mkMethod true true "chat"));
    [ vm_compute; reflexivity | vm_compute; reflexivity | discriminate ].
Defined.

(** C5. The fallback to the original name.  The method [Chat] is
    request-streaming, its original name is [chat], and the only handler
    is registered under (ChatService, chat, rx_stream).  The handler is in
    the registry under that key, yet the binder does not find it: the
    method is left unbound and the service has no method at all. *)
Theorem rx_handler_under_originalName_not_bound :
  let srv := addHandler (canonical "ChatService" "chat" RX_STREAMING) 1 false
               empty_server in
  let d := mkMethod true true "chat" in
  lookup_handler (createPattern "ChatService" "chat" RX_STREAMING) srv = Some 1 /\
  bind_method srv "ChatService" "Chat" d = None /\
  createService srv [("Chat", d)] "ChatService" = ∅.
Proof. cbv zeta. split_and!; vm_compute; reflexivity. Qed.

End BinderProps.

(** ** The call adapters *)

Module AdapterProps.

Import Js Adapters.

Section Unary.

Context {T E : Type}.

Lemma unary_closed (evs : list (@unary_event T E)) (st : unary_state) :
  observing st = false ->
  callbacks (run_microtasks (fold_left unary_step evs st)) ≡ₚ
    callbacks st ++ map CbValue (microtasks st).
Proof.
  revert st. induction evs as [|ev evs IH]; intros st Hst; [done|].
  cbn [fold_left]. destruct ev as [n|].
  - unfold unary_step. rewrite Hst. by apply IH.
  - rewrite IH by done. cbn. by rewrite app_nil_r.
Qed.

Lemma unary_open (evs : list (@unary_event T E)) (st : unary_state) :
  observing st = true ->
  callbacks (run_microtasks (fold_left unary_step evs st)) ≡ₚ
    callbacks st ++ map CbValue (microtasks st) ++
    map CbValue (emitted_values evs) ++ map CbError (emitted_error evs).
Proof.
  revert st. induction evs as [|ev evs IH]; intros st Hst.
  - cbn. by rewrite !app_nil_r.
  - cbn [fold_left]. destruct ev as [[v|e|]|]; unfold unary_step; rewrite ?Hst.
    + rewrite IH by done. cbn. by rewrite map_app, <- !app_assoc.
    + rewrite unary_closed by done. cbn. rewrite <- app_assoc. cbn.
      apply Permutation_app_head, Permutation_cons_append.
    + rewrite unary_closed by done. cbn. by rewrite app_nil_r.
    + rewrite IH by done. cbn. by rewrite <- app_assoc.
Qed.

(** C6, as amended.  The callback of a unary call is invoked once for
    each value the normalized result emits, with that value, and once
    more with the error when the result fails: as many invocations as
    values, plus one for an error.  That is exactly one invocation for a
    result of one value, or for a failure before any value; none for a
    result that completes empty. *)
Theorem unary_callback_per_notification (evs : list (@unary_event T E)) :
  createUnaryServiceMethod evs ≡ₚ
    map CbValue (emitted_values evs) ++ map CbError (emitted_error evs) /\
  length (createUnaryServiceMethod evs) =
    length (emitted_values evs) + length (emitted_error evs).
Proof.
  assert (H : createUnaryServiceMethod evs ≡ₚ
    map CbValue (emitted_values evs) ++ map CbError (emitted_error evs)).
  { unfold createUnaryServiceMethod. by rewrite unary_open. }
  split; [exact H|].
  by rewrite H, length_app, !length_map.
Qed.

End Unary.

(** C6, the counterexample.  A result that emits two values has the
    callback invoked twice, and a result that completes empty never has
    it invoked. *)
Lemma unary_callback_not_once :
  createUnaryServiceMethod (T:=nat) (E:=string)
    [Deliver (Next 1); Deliver (Next 2); Deliver Complete]
  = [CbValue 1; CbValue 2] /\
  createUnaryServiceMethod (T:=nat) (E:=string) [Deliver Complete] = [] /\
  length (createUnaryServiceMethod (T:=nat) (E:=string)
            [Deliver (Next 1); Deliver (Next 2); Deliver Complete]) <> 1.
Proof. split_and!; try reflexivity. discriminate. Qed.

(** *** The error listener of [createRequestStreamMethod] *)

Lemma indexOf_from_range (s search : string) (pos : Z) :
  indexOf_from s search pos = (-1)%Z \/ (pos <= indexOf_from s search pos)%Z.
Proof.
  revert pos. induction s as [|c s IH]; intros pos; unfold indexOf_from;
    fold indexOf_from.
  - destruct (startsWith EmptyString search); [right; lia | by left].
  - destruct (startsWith (String c s) search); [right; lia|].
    destruct (IH (pos + 1)%Z) as [-> | H]; [by left | right; lia].
Qed.

Lemma indexOf_zero (s search : string) :
  indexOf s search = 0%Z <-> startsWith s search = true.
Proof.
  unfold indexOf. destruct s as [|c s]; unfold indexOf_from; fold indexOf_from.
  - destruct (startsWith EmptyString search); [done|]. split; [lia | done].
  - destruct (startsWith (String c s) search); [done|].
    split; [|done]. destruct (indexOf_from_range s search (0 + 1)); lia.
Qed.

(** The listener passes the error on exactly when its text begins with
    [cancelled], in any letter case; every other error ends the call. *)
Lemma on_call_error_cases {M : Type} (e : error) (st : @request_state M) :
  on_call_error e st =
    if startsWith (toLowerCase (String_of e)) "cancelled"
    then req_error e st
    else mkRequest (req_values st) (req_status st) (S (call_ends st)).
Proof.
  unfold on_call_error, truthy_number.
  destruct (startsWith _ "cancelled") eqn:Hp.
  - apply indexOf_zero in Hp. by rewrite Hp.
  - destruct (Z.eqb_spec (indexOf (toLowerCase (String_of e)) "cancelled") 0)
      as [Hz|Hz]; [|done].
    apply indexOf_zero in Hz. congruence.
Qed.

(** C4. Errors on the call while the request stream is read.  An error
    that has nothing to do with cancellation, [Error: boom], ends the
    call and is not passed to the request sequence, which stays open.
    An error whose text begins with [cancelled] is passed to the request
    sequence as a failure and the call is not ended.  (The error of the
    transport, [Error: 1 CANCELLED: ...], ends the call.) *)
Theorem error_listener_inverts_cancel_test :
  on_call_error (M:=nat) (mkError "Error" "boom") request_init
    = mkRequest [] Active 1 /\
  on_call_error (M:=nat) (mkError "CancelledError" "peer went away")
      request_init
    = mkRequest [] (Failed (mkError "CancelledError" "peer went away")) 0 /\
  on_call_error (M:=nat)
      (mkError "Error" "1 CANCELLED: Cancelled on client") request_init
    = mkRequest [] Active 1.
Proof. split_and!; reflexivity. Qed.

(** *** The reply of [createRequestStreamMethod] *)

Section Reply.

Context {E : Type}.

Local Open Scope list_scope.

Lemma takeUntil_values (vs : list jsval) (rest : list (@reply_event E)) :
  takeUntil (values vs ++ Result Complete :: rest) = map Next vs ++ [Complete].
Proof. induction vs as [|v vs IH]; cbn; [done | by rewrite <- IH]. Qed.

Lemma catchError_values (vs : list jsval) :
  catchError (E:=E) (map Next vs ++ [Complete])
  = ([], map Next vs ++ [Complete]).
Proof. induction vs as [|v vs IH]; cbn; [done | by rewrite IH]. Qed.

Lemma defaultIfEmpty_values (vs : list jsval) (d : jsval) :
  defaultIfEmpty_from (E:=E) true d (map Next vs ++ [Complete])
  = map Next vs ++ [Complete].
Proof. induction vs as [|v vs IH]; cbn; [done | by rewrite IH]. Qed.

Lemma lastValueFrom_values (vs : list jsval) (v : jsval)
    (last : option jsval) :
  lastValueFrom_from (E:=E) last (map Next (vs ++ [v]) ++ [Complete])
  = Fulfilled v.
Proof.
  revert last. induction vs as [|w vs IH]; intros last; cbn; [done | apply IH].
Qed.

(** C10. A last value that is undefined.  When the result of the handler
    emits any values, the last of them [undefined], and completes, the
    callback is never invoked, exactly as for a result that completes
    without a value. *)
Theorem undefined_last_value_gives_no_callback (vs : list jsval)
    (rest : list reply_event) :
  request_stream_reply (E:=E)
    (values (vs ++ [JUndefined]) ++ Result Complete :: rest) = [] /\
  request_stream_reply (E:=E) (Result Complete :: rest) = [].
Proof.
  split; [|reflexivity].
  unfold request_stream_reply. rewrite takeUntil_values, catchError_values.
  unfold defaultIfEmpty.
  assert (H : defaultIfEmpty_from (E:=E) false JUndefined
                (map Next (vs ++ [JUndefined]) ++ [Complete])
              = map Next (vs ++ [JUndefined]) ++ [Complete]).
  { destruct vs as [|w vs]; cbn; [done|]. by rewrite defaultIfEmpty_values. }
  rewrite H. unfold lastValueFrom. by rewrite lastValueFrom_values.
Qed.

End Reply.

End AdapterProps.

(** ** Service discovery *)

Module DiscoveryProps.

Import Js Discovery.

(** Induction on a value, with the hypothesis for every property value of
    an object or a function. *)
Lemma jsval_tree_ind (P : jsval -> Prop) :
  P JUndefined -> P JNull -> (forall b, P (JBool b)) ->
  (forall n, P (JNumber n)) -> (forall s, P (JString s)) ->
  (forall props, Forall (fun kv => P (snd kv)) props -> P (JObject props)) ->
  (forall props, Forall (fun kv => P (snd kv)) props -> P (JFunction props)) ->
  forall v, P v.
Proof.
  intros Hu Hn Hb Hz Hs Ho Hf.
  refine (fix IH (v : jsval) : P v :=
    match v with
    | JUndefined => Hu
    | JNull => Hn
    | JBool b => Hb b
    | JNumber n => Hz n
    | JString s => Hs s
    | JObject props => Ho props _
    | JFunction props => Hf props _
    end).
  - induction props as [|[k d] rest IHr]; constructor;
      [exact (IH d) | exact IHr].
  - induction props as [|[k d] rest IHr]; constructor;
      [exact (IH d) | exact IHr].
Qed.

Lemma collect_object (name : string) (props : list (string * jsval))
    (acc : list (string * jsval)) :
  collectDeepServices name (JObject props) acc
  = fold_left (loop_body name) props acc.
Proof. reflexivity. Qed.

(** The guard [if (!isObject(grpcDefinition)) return]. *)
Lemma collect_non_object (name : string) (v : jsval)
    (acc : list (string * jsval)) :
  isObject v = false -> collectDeepServices name v acc = acc.
Proof. by destruct v. Qed.

Lemma outermost_extend (entries : list (string * jsval))
    (entry : string * jsval) (path : list string) (svc : jsval) :
  outermost_service (JObject entries) path svc ->
  outermost_service (JObject (entries ++ [entry])) path svc.
Proof.
  intros H. inversion H; subst.
  - apply service_child; [apply in_or_app; by left | done].
  - eapply service_below; [apply in_or_app; left; eassumption | done | done].
Qed.

Local Open Scope list_scope.

(** What the walk adds to the accumulator, from any node and under any
    name. *)
Lemma collect_spec (v : jsval) :
  forall (prefix : string) (acc : list (string * jsval)) (name : string)
         (svc : jsval),
    In (name, svc) (collectDeepServices prefix v acc) <->
    In (name, svc) acc \/
    exists path, outermost_service v path svc /\ name = names_from prefix path.
Proof.
  induction v as [| |b|n|s|props IH|props IH] using jsval_tree_ind;
    intros prefix acc name svc;
    try (cbn; split; [by left | intros [H | (path & H & _)];
                                  [done | inversion H]]).
  rewrite collect_object. revert acc.
  induction props as [|[key child] rest IHrest] using rev_ind; intros acc.
  - cbn. split; [by left|].
    intros [H | (path & H & _)]; [done|]. inversion H; subst; contradiction.
  - apply Forall_app in IH as [Hrest Hlast].
    apply Forall_inv in Hlast. cbn in Hlast.
    rewrite fold_left_app. cbn. unfold loop_body at 1. cbn.
    destruct (isService child) eqn:Hsvc.
    + rewrite in_app_iff, (IHrest Hrest). cbn. split.
      * intros [[H | (path & H & Hn)] | [H | []]].
        -- by left.
        -- right. exists path. split; [by apply outermost_extend | done].
        -- injection H as <- <-. right. exists [key]. split; [|done].
           apply service_child; [apply in_or_app; right; by left | done].
      * intros [H | (path & H & Hn)]; [by left; left|].
        inversion H as [ps k s Hin Hs | ps k c p s Hin Hs Hsub]; subst.
        -- apply in_app_or in Hin as [Hin | [Heq | []]].
           ++ left; right. exists [k]. split; [by apply service_child | done].
           ++ injection Heq as <- <-. right. by left.
        -- apply in_app_or in Hin as [Hin | [Heq | []]].
           ++ left; right. exists (k :: p).
              split; [by eapply service_below | done].
           ++ injection Heq as <- <-. congruence.
    + rewrite Hlast, (IHrest Hrest). split.
      * intros [[H | (path & H & Hn)] | (path & H & Hn)].
        -- by left.
        -- right. exists path. split; [by apply outermost_extend | done].
        -- right. exists (key :: path). split; [|by subst].
           eapply service_below; [apply in_or_app; right; by left | done | done].
      * intros [H | (path & H & Hn)]; [by left; left|].
        inversion H as [ps k s Hin Hs | ps k c p s Hin Hs Hsub]; subst.
        -- apply in_app_or in Hin as [Hin | [Heq | []]].
           ++ left; right. exists [k]. split; [by apply service_child | done].
           ++ injection Heq as <- <-. congruence.
        -- apply in_app_or in Hin as [Hin | [Heq | []]].
           ++ left; right. exists (k :: p).
              split; [by eapply service_below | done].
           ++ injection Heq as <- <-. right. by exists p.
Qed.

Local Open Scope string_scope.

Lemma string_app_assoc (a b c : string) :
  ((a ++ b) ++ c = a ++ (b ++ c))%string.
Proof.
  induction a as [|x a IH]; [done|].
  change (String x ((a ++ b) ++ c) = String x (a ++ (b ++ c)))%string.
  by f_equal.
Qed.

Lemma parse_nonempty (name key : string) :
  name <> EmptyString -> parseDeepServiceName name key = (name ++ "." ++ key)%string.
Proof. intros Hn. unfold parseDeepServiceName. by destruct name. Qed.

Lemma join_cons_cons (p k : string) (rest : list string) :
  join "." ((p ++ "." ++ k)%string :: rest) = join "." (p :: k :: rest).
Proof.
  destruct rest as [|r rs]; [done|].
  cbn [join]. by rewrite !string_app_assoc.
Qed.

Lemma names_from_join (path : list string) :
  forall prefix, prefix <> EmptyString -> Forall (fun k => k <> EmptyString) path ->
    names_from prefix path = join "." (prefix :: path).
Proof.
  induction path as [|k rest IH]; intros prefix Hp Hall; [done|].
  apply Forall_cons in Hall as [Hk Hrest].
  unfold names_from in *. cbn [fold_left]. rewrite parse_nonempty by done.
  rewrite IH; [apply join_cons_cons | by destruct prefix | done].
Qed.

(** From the root, the name of a path of non-empty keys is the keys
    joined with dots. *)
Lemma names_from_root (path : list string) :
  Forall (fun k => k <> EmptyString) path -> names_from EmptyString path = join "." path.
Proof.
  destruct path as [|k rest]; [done|].
  intros Hall. apply Forall_cons in Hall as [Hk Hrest].
  unfold names_from. cbn [fold_left]. change (parseDeepServiceName EmptyString k) with k.
  by apply names_from_join.
Qed.

Lemma outermost_keys (v : jsval) (path : list string) (svc : jsval) :
  outermost_service v path svc -> keys_nonempty v = true ->
  Forall (fun k => k <> EmptyString) path.
Proof.
  induction 1 as [props key svc Hin Hs
                 | props key child path svc Hin Hs Hsub IH];
    cbn; rewrite forallb_forall; intros Hall;
    specialize (Hall _ Hin); cbn in Hall;
    apply andb_true_iff in Hall as [Hk Hc];
    apply negb_true_iff, String.eqb_neq in Hk.
  - by repeat constructor.
  - constructor; [done | by apply IH].
Qed.

(** Only nodes that carry a service definition are reached, and never the
    root itself. *)
Lemma outermost_is_service (v : jsval) (path : list string) (svc : jsval) :
  outermost_service v path svc -> isService svc = true /\ path <> [].
Proof. induction 1 as [| ? ? ? ? ? ? ? ? [IH _]]; by split. Qed.

(** C9, as amended.  For a package tree whose keys are non-empty,
    [getServiceNames] returns exactly the outermost nodes that carry a
    service definition: those reached from the root object through
    objects carrying none (the walk does not look below such a node, nor
    at the root itself, nor inside a function that carries none), each
    with the keys of its path joined with dots; every pair returned
    carries a service definition. *)
Theorem getServiceNames_outermost (root : jsval) (name : string)
    (svc : jsval) :
  keys_nonempty root = true ->
  In (name, svc) (getServiceNames root) <->
  exists path,
    outermost_service root path svc /\ isService svc = true /\
    name = join "." path.
Proof.
  intros Hkeys. unfold getServiceNames. rewrite collect_spec. split.
  - intros [[] | (path & H & ->)]. exists path. split_and!; [done | |].
    + by apply outermost_is_service in H as [? _].
    + apply names_from_root. by eapply outermost_keys.
  - intros (path & H & _ & ->). right. exists path. split; [done|].
    symmetry. apply names_from_root. by eapply outermost_keys.
Qed.

Lemma getServiceNames_outermost_witness :
  keys_nonempty package_named_service = true /\
  exists path,
    outermost_service package_named_service path
      (JObject [("service", JObject [("Greeter", greeter)])]) /\
    isService (JObject [("service", JObject [("Greeter", greeter)])]) = true /\
    "greet" = join "." path.
Proof.
  split; [reflexivity|].
  apply (getServiceNames_outermost package_named_service "greet"
           (JObject [("service", JObject [("Greeter", greeter)])]));
    [reflexivity | by left].
Defined.

(** C9, the counterexample.  In the package [greet.service], loaded from
    its first component, the node [greet] has a field [service] (the next
    namespace), so the walk reports [greet] and stops there: the node
    [greet.service.Greeter], which carries a service definition, is not
    returned. *)
Lemma service_below_service_field_missed :
  node_at package_named_service ["greet"; "service"; "Greeter"] = greeter /\
  isService greeter = true /\
  getServiceNames package_named_service =
    [("greet", JObject [("service", JObject [("Greeter", greeter)])])] /\
  ~ In ("greet.service.Greeter", greeter)
       (getServiceNames package_named_service).
Proof.
  split_and!; try reflexivity.
  intros [H | []]. discriminate.
Qed.

End DiscoveryProps.

(** ** Laws of the stream writer *)

Module WriterLaws.

Import Writer WriterTrace WriterProps.

Local Open Scope list_scope.

Section Laws.

Context {T E : Type} (accepts : nat -> bool).

Local Abbreviation step := (step (T:=T) (E:=E) accepts).
Local Abbreviation run := (run (T:=T) (E:=E) accepts).
Local Abbreviation sstep := (stream_service_step (T:=T) (E:=E) accepts).

Lemma held_step (st : state) (ev : event T E) :
  held (step st ev) ≡ₚ held st ++ arrival st ev.
Proof.
  unfold held, arrival. break_state st.
  destruct ev as [[v|e|]| |]; unfold_writer;
    repeat (case_match; subst; cbn); rewrite ?app_nil_r; try done.
  all: rewrite <- ?app_assoc; cbn; try done.
  apply Permutation_app_head, Permutation_cons_append.
Qed.

Lemma subscribed_step (st : state) (ev : event T E) :
  inv st ->
  subscribed (step st ev) = subscribed st && keeps_open ev.
Proof.
  intros [Hl Hs Hv Hc He Hd]. break_state st. cbn in *.
  destruct ev as [[v|e|]| |]; unfold_writer;
    repeat (case_match; subst; cbn in * ); try done;
    rewrite ?andb_true_r, ?andb_false_r; try done.
  destruct sub; [by discriminate Hs | done].
Qed.

Lemma arrival_received (st : state) (ev : event T E)
    (evs : list (event T E)) :
  arrival st ev ++
    (if subscribed st && keeps_open ev then received evs else [])
  = if subscribed st then received (ev :: evs) else [].
Proof.
  unfold arrival. destruct (subscribed st); [|done].
  destruct ev as [[v|e|]| |]; by cbn.
Qed.

Lemma held_run (st : state) (evs : list (event T E)) :
  inv st ->
  held (run st evs) ≡ₚ held st ++ (if subscribed st then received evs else []).
Proof.
  revert st. induction evs as [|ev evs IH]; intros st Hinv.
  - cbn. destruct (subscribed st); by rewrite app_nil_r.
  - cbn [Writer.run fold_left]. fold (run (step st ev) evs).
    rewrite IH by (by apply step_inv). rewrite held_step, <- app_assoc.
    rewrite subscribed_step by done. by rewrite arrival_received.
Qed.

Lemma held_reachable (evs : list (event T E)) :
  held (writeObservableToGrpc accepts evs) ≡ₚ received evs.
Proof. apply (held_run init evs inv_init). Qed.

(** X1. Nothing is lost and nothing is written twice: whatever the call
    answers to the writes and whatever the order of the events, the
    values written to the call together with the values still in the
    buffer are exactly the values the observer received, each as many
    times as it was received. *)
Theorem received_values_held (evs : list (event T E)) :
  let st := writeObservableToGrpc accepts evs in
  written st ++ buffer st ≡ₚ received evs.
Proof. intros st. subst st. apply held_reachable. Qed.

Lemma held_step_in_order (st : state) (ev : event T E) :
  in_order st -> held (step st ev) = held st ++ arrival st ev.
Proof.
  unfold held, arrival, in_order. break_state st. cbn. intros HK.
  destruct ev as [[v|e|]| |]; unfold_writer;
    repeat (case_match; subst; cbn); rewrite ?app_nil_r; try done.
  all: rewrite <- ?app_assoc; cbn; try done.
  rewrite HK by done. by rewrite ?app_nil_r.
Qed.

(** While every state satisfies a property under which the buffer is
    only used during a wait, the order of the values is kept. *)
Lemma held_run_in_order (P : @state T E -> Prop) :
  (forall st, P st -> in_order st) ->
  (forall st ev, P st -> P (step st ev)) ->
  forall (evs : list (event T E)) (st : state),
    inv st -> P st ->
    held (run st evs) = held st ++ (if subscribed st then received evs else []).
Proof.
  intros HPK Hstep evs. induction evs as [|ev evs IH]; intros st Hinv HP.
  - cbn. destruct (subscribed st); by rewrite app_nil_r.
  - cbn [Writer.run fold_left]. fold (run (step st ev) evs).
    rewrite IH by (by apply step_inv || by apply Hstep).
    rewrite held_step_in_order by (by apply HPK). rewrite <- app_assoc.
    rewrite subscribed_step by done. by rewrite arrival_received.
Qed.

(** X4. After the end of an invocation nothing happens on the call: once
    the listeners are removed (the call was ended, or an error was
    emitted), no later event, of any kind, changes anything; in
    particular nothing is written any more. *)
Theorem nothing_after_termination (pre post : list (event T E)) :
  cancelOn (writeObservableToGrpc accepts pre) = false ->
  writeObservableToGrpc accepts (pre ++ post)
  = writeObservableToGrpc accepts pre.
Proof.
  intros Hoff. unfold writeObservableToGrpc. rewrite run_app.
  apply torn_down_run.
  pose proof (reachable_inv accepts pre) as Hinv.
  unfold writeObservableToGrpc in *. split_and!.
  - destruct (subscribed (run init pre)) eqn:Hs; [|done].
    rewrite (inv_subscribed _ Hinv Hs) in Hoff. discriminate.
  - by rewrite (inv_listeners _ Hinv).
  - done.
Qed.

Lemma outcome_step (st : state) (ev : event T E) :
  inv st -> outcome st -> outcome (step st ev).
Proof.
  intros [Hl Hs Hv Hc He Hd]. unfold outcome. break_state st. cbn in *.
  destruct ev as [[v|e|]| |]; unfold_writer;
    repeat (case_match; subst; cbn in * ); try done;
    try solve [intuition congruence]; try solve [intuition (subst; done)].
  injection H as ->. by intros (-> & -> & _).
Qed.

Lemma outcome_run (evs : list (event T E)) : outcome (run init evs).
Proof.
  induction evs as [|ev evs IH] using rev_ind; [by cbn|].
  rewrite run_snoc. apply outcome_step; [apply reachable_inv | done].
Qed.

(** X5. One outcome per invocation.  At every moment the promise tells
    how the invocation stands: pending, with the call neither ended nor
    failed and the listeners registered; resolved, with [call.end()]
    invoked exactly once, no error emitted and the listeners removed; or
    rejected with [e], with exactly that one error emitted, the call not
    ended and the listeners removed. *)
Theorem outcome_reached (evs : list (event T E)) :
  outcome (writeObservableToGrpc accepts evs).
Proof. unfold writeObservableToGrpc. apply outcome_run. Qed.

Lemma completed_step (st : state) (ev : event T E) :
  inv st -> is_cancel ev = false ->
  (ended st <> 0 -> isComplete st = true) ->
  ended (step st ev) <> 0 -> isComplete (step st ev) = true.
Proof.
  intros [Hl Hs Hv Hc He Hd] Hev Hfl. break_state st. cbn in *.
  destruct ev as [[v|e|]| |]; try discriminate; unfold_writer.
  all: repeat (case_match; subst; cbn in * ); intros; try done;
    try (by apply Hfl); try (exfalso; intuition congruence).
Qed.

(** X6. An end without cancellation is a complete delivery: if the call
    was ended and no cancellation occurred, then it was ended once, the
    producer had completed, the buffer is empty and every value received
    from the producer has been written, each once (the order is not
    promised). *)
Theorem end_means_all_written (evs : list (event T E)) :
  let st := writeObservableToGrpc accepts evs in
  no_cancel evs = true -> ended st <> 0 ->
  ended st = 1 /\ isComplete st = true /\ buffer st = [] /\
  written st ≡ₚ received evs.
Proof.
  intros st Hnc Hend.
  assert (Hcpl : ended st <> 0 -> isComplete st = true).
  { subst st. clear Hend. unfold writeObservableToGrpc.
    induction evs as [|ev evs IH] using rev_ind; [done|].
    unfold no_cancel in Hnc.
    rewrite forallb_app, andb_true_iff in Hnc. cbn in Hnc.
    rewrite andb_true_r, negb_true_iff in Hnc. destruct Hnc as [Hevs Hev].
    rewrite run_snoc.
    apply completed_step; [apply reachable_inv | done | by apply IH]. }
  pose proof (ended_only_when_flushed accepts evs Hnc Hend) as Hbuf.
  pose proof (held_reachable evs) as Hheld. unfold held in Hheld.
  fold st in Hbuf, Hheld. rewrite Hbuf, app_nil_r in Hheld.
  split_and!; try done; [|by apply Hcpl].
  by destruct (inv_ended _ (reachable_inv accepts evs) Hend) as (? & _).
Qed.

Lemma sstep_no_error (st : state) (ev : event T E) :
  is_error ev = false -> sstep st ev = step st ev.
Proof.
  intros Hev. unfold stream_service_step.
  destruct (promise st) eqn:Hp; try done.
  break_state st. cbn in Hp. subst.
  destruct ev as [[v|e|]| |]; try discriminate; unfold_writer;
    repeat (case_match; subst; cbn in * ); try done.
Qed.

Lemma never_rejected (evs : list (event T E)) (st : state) :
  no_error evs = true ->
  (forall e, promise st <> Rejected e) ->
  forall e, promise (run st evs) <> Rejected e.
Proof.
  revert st. induction evs as [|ev evs IH]; intros st Hne Hst; [done|].
  cbn in Hne. apply andb_true_iff in Hne as [Hev Hevs].
  apply negb_true_iff in Hev. cbn. apply IH; [done|].
  intros e. break_state st. cbn in Hst.
  destruct ev as [[v|e'|]| |]; try discriminate; unfold_writer;
    repeat (case_match; subst; cbn in * ); try done; try apply Hst.
Qed.

(** X7. The server-streaming adapter adds nothing to the writer unless
    the producer errors: for events without a producer error, among them
    completion, drains and cancellation, [createStreamServiceMethod]
    leaves the call exactly as [writeObservableToGrpc] does and emits no
    ['error'] on it. *)
Theorem adapter_without_error (evs : list (event T E)) :
  no_error evs = true ->
  createStreamServiceMethod accepts evs = writeObservableToGrpc accepts evs /\
  errors (createStreamServiceMethod accepts evs) = [].
Proof.
  intros Hne.
  assert (H : forall st, fold_left sstep evs st = run st evs).
  { clear -Hne. induction evs as [|ev evs IH]; intros st; [done|].
    cbn in Hne. apply andb_true_iff in Hne as [Hev Hevs].
    apply negb_true_iff in Hev.
    cbn. rewrite sstep_no_error by done. by apply IH. }
  unfold createStreamServiceMethod. rewrite H. split; [done|].
  fold (writeObservableToGrpc accepts evs).
  pose proof (outcome_run evs) as Ho. unfold outcome in Ho.
  fold (writeObservableToGrpc accepts evs) in Ho.
  destruct (promise (writeObservableToGrpc accepts evs)) eqn:Hp;
    try (by destruct Ho as (_ & ? & _)).
  exfalso. revert Hp. by apply never_rejected.
Qed.

End Laws.

Lemma nothing_after_termination_witness :
  cancelOn (writeObservableToGrpc (backpressure_at [0])
              [value 1; value 2; Cancel]) = false /\
  writeObservableToGrpc (backpressure_at [0])
    ([value 1; value 2; Cancel] ++ [Drain; value 3; Notify Complete])
  = writeObservableToGrpc (backpressure_at [0]) [value 1; value 2; Cancel].
Proof.
  split; [reflexivity|].
  apply (nothing_after_termination (backpressure_at [0])
           [value 1; value 2; Cancel] [Drain; value 3; Notify Complete]).
  reflexivity.
Defined.

Lemma end_means_all_written_witness :
  no_cancel [value 1; value 2; Drain; Notify Complete; Drain] = true /\
  ended (writeObservableToGrpc (fun _ => false)
           [value 1; value 2; Drain; Notify Complete; Drain]) <> 0 /\
  written (writeObservableToGrpc (fun _ => false)
             [value 1; value 2; Drain; Notify Complete; Drain])
    ≡ₚ received [value 1; value 2; Drain; Notify Complete; Drain].
Proof.
  split; [reflexivity|]. split; [discriminate|].
  apply (end_means_all_written (fun _ => false)
           [value 1; value 2; Drain; Notify Complete; Drain]);
    [reflexivity | discriminate].
Defined.

Lemma adapter_without_error_witness :
  no_error [value 1; value 2; Drain; Cancel] = true /\
  errors (createStreamServiceMethod (backpressure_at [0])
            [value 1; value 2; Drain; Cancel]) = [].
Proof.
  split; [reflexivity|].
  apply (adapter_without_error (backpressure_at [0])
           [value 1; value 2; Drain; Cancel]).
  reflexivity.
Defined.

(** X2. Without backpressure the order is kept: when every write is
    accepted, the values are written in the order received, the buffer is
    never used, and drain events change nothing. *)
Theorem fifo_without_backpressure {T E : Type} (evs : list (event T E)) :
  let st := writeObservableToGrpc (fun _ => true) evs in
  written st = received evs /\ buffer st = [].
Proof.
  intros st.
  set (P := fun st : @state T E => clearToWrite st = true /\ buffer st = []).
  assert (Hstep : forall (s : @state T E) ev,
             P s -> P (Writer.step (fun _ => true) s ev)).
  { intros s ev [Hc Hb]. break_state s. cbn in *. subst.
    destruct ev as [[v|e|]| |]; unfold_writer;
      repeat (case_match; subst; cbn); by split. }
  assert (HP : P st).
  { subst st. unfold writeObservableToGrpc.
    induction evs as [|ev evs IH] using rev_ind; [by split|].
    rewrite run_snoc. by apply Hstep. }
  assert (Hh : held st = received evs).
  { subst st.
    apply (held_run_in_order (fun _ => true) P) with (st := init) (evs := evs);
      [by intros s [Hc Hb] _ | done | apply inv_init | by split]. }
  destruct HP as [_ Hb]. unfold held in Hh. rewrite Hb, app_nil_r in Hh.
  by split.
Qed.


End WriterLaws.

(** ** Laws of the pattern registry *)

Module RegistryLaws.

Import Js Registry Binder RegistryCodec.

Lemma append_String (c : ascii) (x y : string) :
  String c x ++ y = String c (x ++ y).
Proof. reflexivity. Qed.

Lemma unquote_quote_char (c : ascii) (x : string) :
  unquote_char (quote_char c ++ x) = Some (c, x).
Proof. destruct c as [[] [] [] [] [] [] [] []]; reflexivity. Qed.

Lemma quote_chars_inj (s s' r r' : string) :
  quote_chars s ++ String dquote r = quote_chars s' ++ String dquote r' ->
  s = s' /\ r = r'.
Proof.
  revert s'. induction s as [|c s IH]; intros [|c' s'] H.
  - by injection H.
  - apply (f_equal unquote_char) in H. cbn [quote_chars] in H.
    rewrite DiscoveryProps.string_app_assoc, unquote_quote_char in H.
    discriminate.
  - apply (f_equal unquote_char) in H. cbn [quote_chars] in H.
    rewrite DiscoveryProps.string_app_assoc, unquote_quote_char in H.
    discriminate.
  - apply (f_equal unquote_char) in H. cbn [quote_chars] in H.
    rewrite !DiscoveryProps.string_app_assoc, !unquote_quote_char in H.
    injection H as -> H. apply IH in H as [-> ->]. done.
Qed.

(** A quoted string ends where its closing quote is: what follows it can
    be told apart from it. *)
Lemma quote_delimited (a b x y : string) :
  quote a ++ x = quote b ++ y -> a = b /\ x = y.
Proof.
  unfold quote.
  rewrite !append_String, !DiscoveryProps.string_app_assoc, !append_String.
  intros H. injection H as H. by apply quote_chars_inj in H.
Qed.

Lemma stringify_entries (props : list (string * string)) :
  stringify props = "{" ++ join "," (map entry props) ++ "}".
Proof. reflexivity. Qed.

Lemma char_app_inj (c : ascii) (x y : string) :
  String c EmptyString ++ x = String c EmptyString ++ y -> x = y.
Proof. intros H. by injection H. Qed.

Lemma entry_delimited (e e' : string * string) (x y : string) :
  entry e ++ x = entry e' ++ y -> e = e' /\ x = y.
Proof.
  destruct e as [k v], e' as [k' v']. unfold entry. cbn [fst snd].
  rewrite !DiscoveryProps.string_app_assoc. intros H.
  apply quote_delimited in H as [-> H].
  apply char_app_inj in H.
  by apply quote_delimited in H as [-> ->].
Qed.

Lemma entry_starts_with_quote (e : string * string) (x : string) :
  exists rest, entry e ++ x = String dquote rest.
Proof. unfold entry, quote. rewrite !append_String. eauto. Qed.

Lemma join_cons (e : string * string) (rest : list (string * string))
    (x : string) :
  join "," (map entry (e :: rest)) ++ x
  = entry e ++ match rest with
               | [] => x
               | _ :: _ => String ","%char (join "," (map entry rest) ++ x)
               end.
Proof.
  destruct rest as [|e2 rest]; [done|].
  cbn [map join]. by rewrite DiscoveryProps.string_app_assoc.
Qed.

Lemma joined_inj (l l' : list (string * string)) :
  join "," (map entry l) ++ "}" = join "," (map entry l') ++ "}" -> l = l'.
Proof.
  revert l'. induction l as [|e l IH]; intros [|e' l'] H.
  - done.
  - rewrite join_cons in H.
    destruct (entry_starts_with_quote e'
      (match l' with
       | [] => "}"
       | _ :: _ => String ","%char (join "," (map entry l') ++ "}")
       end)) as [r Hr].
    rewrite Hr in H. discriminate.
  - rewrite join_cons in H.
    destruct (entry_starts_with_quote e
      (match l with
       | [] => "}"
       | _ :: _ => String ","%char (join "," (map entry l) ++ "}")
       end)) as [r Hr].
    rewrite Hr in H. discriminate.
  - rewrite !join_cons in H. apply entry_delimited in H as [-> H].
    destruct l as [|e2 l], l' as [|e2' l']; try discriminate; [done|].
    injection H as H. by rewrite (IH (e2' :: l') H).
Qed.

Lemma stringify_injective (p1 p2 : list (string * string)) :
  stringify p1 = stringify p2 -> p1 = p2.
Proof.
  rewrite !stringify_entries. intros H. injection H as H. by apply joined_inj.
Qed.

(** X8. The text of a key object tells everything about it: two objects
    with string values get the same JSON text exactly when they list the
    same properties with the same values in the same order, whatever
    characters the names and values contain (quotes, backslashes and
    control characters are escaped). *)
Theorem stringify_inj (p1 p2 : list (string * string)) :
  stringify p1 = stringify p2 <-> p1 = p2.
Proof. split; [apply stringify_injective | by intros ->]. Qed.

Lemma streaming_value_inj (k k' : GrpcMethodStreamingType) :
  streaming_value k = streaming_value k' -> k = k'.
Proof. by destruct k, k'. Qed.

Lemma createPattern_injective (s s' m m' : string)
    (k k' : GrpcMethodStreamingType) :
  createPattern s m k = createPattern s' m' k' -> (s, m, k) = (s', m', k').
Proof.
  intros H. apply stringify_injective in H. injection H as -> -> H.
  by apply streaming_value_inj in H as ->.
Qed.

(** X9. Patterns do not collide: [createPattern] gives the same text for
    two (service, method, streaming type) triples only when the triples
    are the same. *)
Theorem createPattern_inj (s s' m m' : string)
    (k k' : GrpcMethodStreamingType) :
  createPattern s m k = createPattern s' m' k' <->
  (s, m, k) = (s', m', k').
Proof. split; [apply createPattern_injective | by intros [= -> -> ->]]. Qed.

(** X10. Registering a handler for one (service, method, streaming type)
    changes what no other triple resolves to. *)
Theorem other_triples_untouched (srv : server) (h : handler) (isEvent : bool)
    (s s' m m' : string) (k k' : GrpcMethodStreamingType) :
  (s, m, k) <> (s', m', k') ->
  lookup_handler (createPattern s' m' k')
    (addHandler (canonical s m k) h isEvent srv)
  = lookup_handler (createPattern s' m' k') srv.
Proof.
  intros Hne. apply RegistryProps.lookup_other_route.
  rewrite RegistryProps.route_of_canonical. intros H.
  by apply createPattern_injective in H.
Qed.

Lemma other_triples_untouched_witness :
  ("GreetService", "Hello", NO_STREAMING)
    <> ("GreetService", "Hello", RX_STREAMING) /\
  lookup_handler (createPattern "GreetService" "Hello" RX_STREAMING)
    (addHandler (canonical "GreetService" "Hello" NO_STREAMING) 1 false
       empty_server)
  = lookup_handler (createPattern "GreetService" "Hello" RX_STREAMING)
      empty_server.
Proof.
  split; [discriminate|].
  apply (other_triples_untouched empty_server 1 false
           "GreetService" "GreetService" "Hello" "Hello"
           NO_STREAMING RX_STREAMING).
  discriminate.
Defined.

(** X11. A handler is one object: when the same handler is registered
    under a second pattern, both patterns resolve to it and its
    [isEventHandler] flag is the one given last, also for calls that
    reach it through the first pattern. *)
Theorem second_registration_rewrites_flag (srv : server) (h : handler)
    (b1 b2 : bool) (k1 k2 : pattern) :
  route_of k1 <> route_of k2 ->
  let srv' := addHandler k2 h b2 (addHandler k1 h b1 srv) in
  lookup_handler (route_of k1) srv' = Some h /\
  lookup_handler (route_of k2) srv' = Some h /\
  isEventHandler srv' !! h = Some b2.
Proof.
  intros Hne srv'. subst srv'. unfold lookup_handler, addHandler. cbn.
  split_and!.
  - rewrite lookup_insert_ne by done. apply lookup_insert_eq.
  - apply lookup_insert_eq.
  - apply lookup_insert_eq.
Qed.

Lemma second_registration_rewrites_flag_witness :
  route_of (PatString "a") <> route_of (PatString "b") /\
  isEventHandler
    (addHandler (PatString "b") 1 true
       (addHandler (PatString "a") 1 false empty_server)) !! 1 = Some true.
Proof.
  split; [discriminate|].
  apply (second_registration_rewrites_flag empty_server 1 false true
           (PatString "a") (PatString "b")).
  discriminate.
Defined.

Lemma lookup_register_step (srv : server) (r : registration)
    (s m : string) (k : GrpcMethodStreamingType) (h : handler) :
  lookup_handler (createPattern s m k)
    (addHandler (canonical (reg_service r) (reg_rpc r) (reg_streaming r))
       (reg_handler r) false srv) = Some h ->
  r = mkRegistration s m k h \/
  lookup_handler (createPattern s m k) srv = Some h.
Proof.
  destruct (decide (createPattern (reg_service r) (reg_rpc r)
                      (reg_streaming r) = createPattern s m k)) as [Heq|Hne].
  - unfold lookup_handler, addHandler. cbn [messageHandlers].
    rewrite RegistryProps.route_of_canonical, Heq, lookup_insert_eq.
    intros [= <-].
    apply createPattern_injective in Heq. injection Heq as <- <- <-.
    left. by destruct r.
  - rewrite RegistryProps.lookup_other_route by done. by right.
Qed.

Lemma lookup_register_all (regs : list registration)
    (s m : string) (k : GrpcMethodStreamingType) (h : handler) :
  lookup_handler (createPattern s m k) (register_all regs) = Some h ->
  In (mkRegistration s m k h) regs.
Proof.
  unfold register_all.
  induction regs as [|r regs IH] using rev_ind.
  - cbn. unfold lookup_handler. cbn. by rewrite lookup_empty.
  - rewrite fold_left_app. cbn. intros H.
    apply lookup_register_step in H as [-> | H]; apply in_or_app.
    + right. by left.
    + left. by apply IH.
Qed.

(** X12. The registry invents nothing: after any sequence of
    registrations, a pattern resolves to a handler only if that handler
    was registered for exactly that service, method and streaming
    type. *)
Theorem registered_handlers_only (regs : list registration)
    (s m : string) (k : GrpcMethodStreamingType) (h : handler) :
  lookup_handler (createPattern s m k) (register_all regs) = Some h ->
  In (mkRegistration s m k h) regs.
Proof. apply lookup_register_all. Qed.

Lemma registered_handlers_only_witness :
  lookup_handler (createPattern "GreetService" "Hello" NO_STREAMING)
    (register_all [mkRegistration "GreetService" "Hi" NO_STREAMING 2;
                   mkRegistration "GreetService" "Hello" NO_STREAMING 1])
  = Some 1 /\
  In (mkRegistration "GreetService" "Hello" NO_STREAMING 1)
     [mkRegistration "GreetService" "Hi" NO_STREAMING 2;
      mkRegistration "GreetService" "Hello" NO_STREAMING 1].
Proof.
  split; [vm_compute; reflexivity|].
  apply (registered_handlers_only
           [mkRegistration "GreetService" "Hi" NO_STREAMING 2;
            mkRegistration "GreetService" "Hello" NO_STREAMING 1]
           "GreetService" "Hello" NO_STREAMING 1).
  vm_compute. reflexivity.
Defined.

Lemma same_key_text (k1 k2 : pattern) :
  route_of k1 = route_of k2 <-> same_key k1 k2 = true.
Proof.
  destruct k1 as [s1|p1], k2 as [s2|p2]; cbn [route_of same_key].
  - by rewrite String.eqb_eq.
  - by rewrite String.eqb_eq.
  - rewrite String.eqb_eq. split; intros H; by symmetry.
  - rewrite bool_decide_eq_true. split; [apply stringify_injective | by intros ->].
Qed.

(** C7, as amended.  The registry compares keys by their text: a string
    key as it is, an object key as its JSON text, and two key objects
    have the same text exactly when they list the same properties with
    the same values in the same order.  Whatever the registry held
    before, looking up a key after a handler was registered under
    another returns that very handler when the two keys have the same
    text, and otherwise what the registry held under the looked-up key
    before: key objects with the same component values in a different
    order never collide. *)
Theorem lookup_after_register (srv : server) (h : handler) (isEvent : bool)
    (k1 k2 : pattern) :
  (route_of k1 = route_of k2 <-> same_key k1 k2 = true) /\
  lookup_handler (route_of k2) (addHandler k1 h isEvent srv) =
    if same_key k1 k2 then Some h else lookup_handler (route_of k2) srv.
Proof.
  split; [apply same_key_text|].
  destruct (same_key k1 k2) eqn:Hk.
  - apply same_key_text in Hk. unfold lookup_handler, addHandler.
    cbn [messageHandlers]. rewrite Hk. apply lookup_insert_eq.
  - apply RegistryProps.lookup_other_route. intros Hr.
    apply same_key_text in Hr. congruence.
Qed.

End RegistryLaws.

(** ** Laws of the service binder *)

Module BinderLaws.

Import Js Registry Binder RegistryCodec RegistryLaws.

Lemma createService_snoc (srv : server)
    (defs : list (string * MethodDefinition))
    (m : string) (d : MethodDefinition) (name : string) :
  createService srv (defs ++ [(m, d)]) name =
    match bind_method srv name m d with
    | None => createService srv defs name
    | Some a => <[m := a]> (createService srv defs name)
    end.
Proof. unfold createService. by rewrite fold_left_app. Qed.

Lemma createService_bound (srv : server)
    (defs : list (string * MethodDefinition))
    (name m : string) (a : adapter) :
  createService srv defs name !! m = Some a ->
  exists d, In (m, d) defs /\ bind_method srv name m d = Some a.
Proof.
  induction defs as [|[m' d'] defs IH] using rev_ind.
  - unfold createService. cbn. by rewrite lookup_empty.
  - rewrite createService_snoc. intros H.
    destruct (bind_method srv name m' d') as [a'|] eqn:Hb.
    + destruct (decide (m' = m)) as [->|Hne].
      * rewrite lookup_insert_eq in H. injection H as ->.
        exists d'. split; [apply in_or_app; right; by left | done].
      * rewrite lookup_insert_ne in H by done.
        destruct (IH H) as (d & Hin & Hd). exists d.
        split; [apply in_or_app; by left | done].
    + destruct (IH H) as (d & Hin & Hd). exists d.
      split; [apply in_or_app; by left | done].
Qed.

(** X13. The service that [createService] returns has, for each method
    of the definition, exactly the adapter the loop body decides for it,
    under the name of the method as the definition has it (also when the
    handler was found under the original name); a method without a
    handler, and any name that is not in the definition, is absent. *)
Theorem createService_lookup (srv : server)
    (defs : list (string * MethodDefinition)) (name m : string) :
  NoDup (map fst defs) ->
  (forall d, In (m, d) defs ->
     createService srv defs name !! m = bind_method srv name m d) /\
  (~ In m (map fst defs) -> createService srv defs name !! m = None).
Proof.
  intros Hnd.
  assert (Hout : ~ In m (map fst defs) ->
                 createService srv defs name !! m = None).
  { intros Hm.
    destruct (createService srv defs name !! m) as [a|] eqn:Ha; [|done].
    apply createService_bound in Ha as (d & Hin & _).
    exfalso. apply Hm. apply in_map_iff. by exists (m, d). }
  split; [|done]. clear Hout.
  induction defs as [|[m' d'] defs IH] using rev_ind; [done|].
  rewrite map_app in Hnd. apply NoDup_app in Hnd as (Hnd & Hdisj & _).
  intros d Hin. rewrite createService_snoc.
  apply in_app_or in Hin as [Hin | [[= -> ->] | []]].
  - assert (Hne : m' <> m).
    { intros ->.
      eapply Hdisj; [apply list_elem_of_In, in_map_iff; by exists (m, d)|].
      cbn. apply list_elem_of_In. by left. }
    destruct (bind_method srv name m' d');
      [rewrite lookup_insert_ne by done|]; by apply IH.
  - destruct (bind_method srv name m d) eqn:Hb;
      [by rewrite lookup_insert_eq|].
    destruct (createService srv defs name !! m) as [a|] eqn:Ha; [|done].
    apply createService_bound in Ha as (d0 & Hin0 & _).
    exfalso.
    eapply Hdisj; [apply list_elem_of_In, in_map_iff; by exists (m, d0)|].
    cbn. apply list_elem_of_In. by left.
Qed.

Lemma createService_lookup_witness :
  NoDup (map fst [("Hello", mkMethod false false "hello");
                  ("Hi", mkMethod false false "hi")]) /\
  createService
    (addHandler (canonical "GreetService" "Hello" NO_STREAMING) 1 false
       empty_server)
    [("Hello", mkMethod false false "hello");
     ("Hi", mkMethod false false "hi")] "GreetService" !! "Hello"
  = bind_method
      (addHandler (canonical "GreetService" "Hello" NO_STREAMING) 1 false
         empty_server)
      "GreetService" "Hello" (mkMethod false false "hello").
Proof.
  assert (Hnd : NoDup (map fst [("Hello", mkMethod false false "hello");
                                ("Hi", mkMethod false false "hi")])).
  { cbn. apply NoDup_cons. split.
    - intros [H | H]%elem_of_cons; [discriminate | by apply elem_of_nil in H].
    - apply NoDup_singleton. }
  split; [exact Hnd|].
  apply (createService_lookup
           (addHandler (canonical "GreetService" "Hello" NO_STREAMING) 1 false
              empty_server)
           [("Hello", mkMethod false false "hello");
            ("Hi", mkMethod false false "hi")] "GreetService" "Hello" Hnd).
  by left.
Defined.

(** X14. How a request-streaming method is bound: to the reactive
    adapter around the handler registered as [rx_stream] under the
    method name, if there is one, whatever else is registered; failing
    that, to the pass-through adapter around the handler registered as
    [pt_stream] under the method name; failing that, to the pass-through
    adapter around the handler registered as [pt_stream] under the
    original name, when that name differs; otherwise it is left
    unbound. *)
Theorem request_stream_preference (srv : server) (name m : string)
    (d : MethodDefinition) :
  requestStream d = true ->
  bind_method srv name m d =
    match lookup_handler (createPattern name m RX_STREAMING) srv with
    | Some h => Some (RequestStreamMethod h (responseStream d))
    | None =>
        match lookup_handler (createPattern name m PT_STREAMING) srv with
        | Some h => Some (StreamCallMethod h (responseStream d))
        | None =>
            if String.eqb m (originalName d) then None
            else (fun h => StreamCallMethod h (responseStream d)) <$>
                   lookup_handler
                     (createPattern name (originalName d) PT_STREAMING) srv
        end
    end.
Proof.
  intros Hrs. unfold bind_method, lookup_by_methodName, createServiceMethod.
  rewrite Hrs.
  destruct (lookup_handler (createPattern name m RX_STREAMING) srv); [done|].
  destruct (lookup_handler (createPattern name m PT_STREAMING) srv); [done|].
  destruct (String.eqb m (originalName d)); [done|]. cbn.
  by destruct (lookup_handler
                 (createPattern name (originalName d) PT_STREAMING) srv).
Qed.

Lemma request_stream_preference_witness :
  requestStream (mkMethod true false "hello") = true /\
  bind_method
    (register_all [mkRegistration "GreetService" "Hello" PT_STREAMING 2;
                   mkRegistration "GreetService" "Hello" RX_STREAMING 1])
    "GreetService" "Hello" (mkMethod true false "hello")
  = Some (RequestStreamMethod 1 false).
Proof.
  split; [reflexivity|].
  rewrite (request_stream_preference
             (register_all
                [mkRegistration "GreetService" "Hello" PT_STREAMING 2;
                 mkRegistration "GreetService" "Hello" RX_STREAMING 1])
             "GreetService" "Hello" (mkMethod true false "hello") eq_refl).
  vm_compute. reflexivity.
Defined.

(** X15. The adapter fits the method: a bound request-streaming method
    has the reactive or the pass-through adapter, told whether the method
    is response-streaming; a bound method that is not request-streaming
    has the server-streaming adapter when it is response-streaming and
    the unary adapter when it is not. *)
Theorem adapter_matches_request_kind (srv : server) (name m : string)
    (d : MethodDefinition) (a : adapter) :
  bind_method srv name m d = Some a ->
  if requestStream d
  then a = RequestStreamMethod (handler_of a) (responseStream d) \/
       a = StreamCallMethod (handler_of a) (responseStream d)
  else a = if responseStream d then StreamServiceMethod (handler_of a)
           else UnaryServiceMethod (handler_of a).
Proof.
  unfold bind_method, lookup_by_methodName, createServiceMethod.
  destruct (requestStream d) eqn:Hrs.
  - destruct (lookup_handler (createPattern name m RX_STREAMING) srv) as [h|].
    + intros [= <-]. by left.
    + destruct (lookup_handler (createPattern name m PT_STREAMING) srv)
        as [h|].
      * intros [= <-]. by right.
      * destruct (negb _); [|done].
        destruct (lookup_handler (createPattern name (originalName d) _) srv)
          as [h|]; [|done].
        intros [= <-]. by right.
  - destruct (lookup_handler (createPattern name m NO_STREAMING) srv) as [h|].
    + intros [= <-]. by destruct (responseStream d).
    + destruct (negb _); [|done].
      destruct (lookup_handler (createPattern name (originalName d) _) srv)
        as [h|]; [|done].
      intros [= <-]. by destruct (responseStream d).
Qed.

Lemma adapter_matches_request_kind_witness :
  bind_method
    (register_all [mkRegistration "GreetService" "Hello" NO_STREAMING 1])
    "GreetService" "Hello" (mkMethod false true "hello")
  = Some (StreamServiceMethod 1) /\
  StreamServiceMethod 1 = StreamServiceMethod (handler_of (StreamServiceMethod 1)).
Proof.
  assert (H : bind_method
    (register_all [mkRegistration "GreetService" "Hello" NO_STREAMING 1])
    "GreetService" "Hello" (mkMethod false true "hello")
    = Some (StreamServiceMethod 1)) by (vm_compute; reflexivity).
  split; [exact H|].
  exact (adapter_matches_request_kind _ _ _ _ _ H).
Defined.

Lemma bind_method_source (srv : server) (name m : string)
    (d : MethodDefinition) (a : adapter) :
  bind_method srv name m d = Some a ->
  exists rpc k,
    lookup_handler (createPattern name rpc k) srv = Some (handler_of a) /\
    (rpc = m \/ rpc = originalName d).
Proof.
  unfold bind_method, lookup_by_methodName, createServiceMethod.
  destruct (requestStream d) eqn:Hrs.
  - destruct (lookup_handler (createPattern name m RX_STREAMING) srv)
      as [h|] eqn:H1.
    + intros [= <-]. exists m, RX_STREAMING. split; [done | by left].
    + destruct (lookup_handler (createPattern name m PT_STREAMING) srv)
        as [h|] eqn:H2.
      * intros [= <-]. exists m, PT_STREAMING. split; [done | by left].
      * destruct (negb _); [|done].
        destruct (lookup_handler (createPattern name (originalName d) _) srv)
          as [h|] eqn:H3; [|done].
        intros [= <-]. exists (originalName d), PT_STREAMING.
        split; [done | by right].
  - destruct (lookup_handler (createPattern name m NO_STREAMING) srv)
      as [h|] eqn:H1.
    + intros [= <-]. exists m, NO_STREAMING.
      split; [by destruct (responseStream d) | by left].
    + destruct (negb _); [|done].
      destruct (lookup_handler (createPattern name (originalName d) _) srv)
        as [h|] eqn:H3; [|done].
      intros [= <-]. exists (originalName d), NO_STREAMING.
      split; [by destruct (responseStream d) | by right].
Qed.

(** X16. A service is bound to its own handlers only: whatever was
    registered, every adapter of the service returned by [createService]
    is built around a handler that was registered for that very service
    name, and for the name or the original name of a method of the
    definition that has the bound name. *)
Theorem bound_handlers_belong_to_service (regs : list registration)
    (defs : list (string * MethodDefinition)) (name m : string)
    (a : adapter) :
  createService (register_all regs) defs name !! m = Some a ->
  exists d r,
    In (m, d) defs /\ In r regs /\
    reg_service r = name /\ reg_handler r = handler_of a /\
    (reg_rpc r = m \/ reg_rpc r = originalName d).
Proof.
  intros H. apply createService_bound in H as (d & Hin & Hb).
  apply bind_method_source in Hb as (rpc & k & Hl & Hrpc).
  apply lookup_register_all in Hl.
  exists d, (mkRegistration name rpc k (handler_of a)). by split_and!.
Qed.

Lemma bound_handlers_belong_to_service_witness :
  createService
    (register_all [mkRegistration "Other" "Hello" NO_STREAMING 2;
                   mkRegistration "GreetService" "hello" NO_STREAMING 1])
    [("Hello", mkMethod false false "hello")] "GreetService" !! "Hello"
  = Some (UnaryServiceMethod 1) /\
  exists d r,
    In ("Hello", d) [("Hello", mkMethod false false "hello")] /\
    In r [mkRegistration "Other" "Hello" NO_STREAMING 2;
          mkRegistration "GreetService" "hello" NO_STREAMING 1] /\
    reg_service r = "GreetService" /\
    reg_handler r = handler_of (UnaryServiceMethod 1) /\
    (reg_rpc r = "Hello" \/ reg_rpc r = originalName d).
Proof.
  assert (H : createService
    (register_all [mkRegistration "Other" "Hello" NO_STREAMING 2;
                   mkRegistration "GreetService" "hello" NO_STREAMING 1])
    [("Hello", mkMethod false false "hello")] "GreetService" !! "Hello"
    = Some (UnaryServiceMethod 1)) by (vm_compute; reflexivity).
  split; [exact H|].
  exact (bound_handlers_belong_to_service _ _ _ _ _ H).
Defined.

End BinderLaws.

(** ** Laws of the call adapters *)

Module AdapterLaws.

Import Js Adapters AdaptersMore AdapterProps.

Local Open Scope list_scope.

Section Unary.

Context {T E : Type}.

Lemma unary_buffering (vs : list T) (st : @unary_state T E) :
  observing st = true ->
  fold_left unary_step (map (fun v => Deliver (Next v)) vs) st
  = mkUnary true (microtasks st ++ vs) (callbacks st).
Proof.
  revert st. induction vs as [|v vs IH]; intros st Hst.
  - cbn. rewrite app_nil_r. by destruct st as [[] ? ?].
  - cbn [map fold_left]. rewrite IH.
    + unfold unary_step. rewrite Hst. cbn. by rewrite <- app_assoc.
    + unfold unary_step. by rewrite Hst.
Qed.

Lemma unary_after_close (evs : list (@unary_event T E)) (st : unary_state) :
  observing st = false ->
  callbacks (run_microtasks (fold_left unary_step evs st))
  = callbacks st ++ map CbValue (microtasks st).
Proof.
  revert st. induction evs as [|ev evs IH]; intros st Hst; [done|].
  cbn [fold_left]. destruct ev as [n|].
  - unfold unary_step. rewrite Hst. by apply IH.
  - rewrite IH by done. cbn. by rewrite app_nil_r.
Qed.

(** X21. In a unary call the error overtakes the values of its job: when
    the result emits values and then fails within one job, the callback
    is invoked with the error first and with each value afterwards,
    because the value handler awaits before it calls back. *)
Theorem unary_error_overtakes_values (vs : list T) (e : E)
    (rest : list (@unary_event T E)) :
  createUnaryServiceMethod
    (map (fun v => Deliver (Next v)) vs ++ Deliver (Error e) :: rest)
  = CbError e :: map CbValue vs.
Proof.
  unfold createUnaryServiceMethod.
  rewrite fold_left_app, unary_buffering by done.
  cbn [fold_left]. by rewrite unary_after_close.
Qed.

End Unary.

Section Reply.

Context {E : Type}.

Lemma takeUntil_cancelled (vs : list jsval) (rest : list (@reply_event E)) :
  takeUntil (values vs ++ Cancelled :: rest) = map Next vs ++ [Complete].
Proof. induction vs as [|v vs IH]; cbn; [done | by rewrite <- IH]. Qed.

Lemma takeUntil_error (vs : list jsval) (e : E)
    (rest : list (@reply_event E)) :
  takeUntil (values vs ++ Result (Error e) :: rest)
  = map Next vs ++ [Error e].
Proof. induction vs as [|v vs IH]; cbn; [done | by rewrite <- IH]. Qed.

Lemma takeUntil_pending (vs : list jsval) :
  takeUntil (E:=E) (values vs) = map Next vs.
Proof. induction vs as [|v vs IH]; cbn; [done | by rewrite <- IH]. Qed.

Lemma catchError_error (vs : list jsval) (e : E) :
  catchError (map Next vs ++ [Error e])
  = ([CbError e], map Next vs ++ [Complete]).
Proof. induction vs as [|v vs IH]; cbn; [done | by rewrite IH]. Qed.

Lemma catchError_pending (vs : list jsval) :
  catchError (E:=E) (map Next vs) = ([], map Next vs).
Proof. induction vs as [|v vs IH]; cbn; [done | by rewrite IH]. Qed.

(** What the awaited promise is fulfilled with once the piped result has
    completed: the last value, [undefined] when there was none. *)
Lemma await_completed (vs : list jsval) :
  lastValueFrom (E:=E) (defaultIfEmpty JUndefined (map Next vs ++ [Complete]))
  = Fulfilled (default JUndefined (last vs)).
Proof.
  destruct vs as [|v vs _] using rev_ind; [done|].
  rewrite last_snoc. cbn [default].
  unfold defaultIfEmpty, lastValueFrom.
  assert (H : defaultIfEmpty_from (E:=E) false JUndefined
                (map Next (vs ++ [v]) ++ [Complete])
              = map Next (vs ++ [v]) ++ [Complete]).
  { destruct vs as [|w vs]; cbn; [done|]. by rewrite defaultIfEmpty_values. }
  by rewrite H, lastValueFrom_values.
Qed.

Lemma await_pending (vs : list jsval) (b : bool) (l : option jsval) :
  lastValueFrom_from (E:=E) l (defaultIfEmpty_from b JUndefined (map Next vs))
  = Unsettled.
Proof.
  revert b l. induction vs as [|v vs IH]; intros b l; cbn; [done | apply IH].
Qed.

Lemma reply_of_last (vs : list jsval) (cbs : list (callback_call jsval E)) :
  (if negb (isUndefined (default JUndefined (last vs)))
   then cbs ++ [CbValue (default JUndefined (last vs))] else cbs)
  = cbs ++ last_defined vs.
Proof.
  unfold last_defined. destruct (last vs) as [v|]; cbn.
  - destruct (isUndefined v); cbn; by rewrite ?app_nil_r.
  - by rewrite app_nil_r.
Qed.

(** X17. The reply of a client-streaming call that is not
    response-streaming, when the result completes or the call is
    cancelled first: the callback is invoked once with the last value
    emitted until then, and not at all when no value was emitted or the
    last one is [undefined]; earlier values are never delivered. *)
Theorem reply_on_completion (vs : list jsval) (rest : list reply_event) :
  request_stream_reply (E:=E) (values vs ++ Result Complete :: rest)
    = last_defined vs /\
  request_stream_reply (E:=E) (values vs ++ Cancelled :: rest)
    = last_defined vs.
Proof.
  unfold request_stream_reply.
  rewrite takeUntil_values, takeUntil_cancelled, catchError_values,
    await_completed.
  by rewrite (reply_of_last vs []).
Qed.

(** X18. The reply when the result fails: the callback is invoked with
    the error, once, and then once more with the last value emitted
    before the failure, if there is one and it is not [undefined]. *)
Theorem reply_on_error (vs : list jsval) (e : E) (rest : list reply_event) :
  request_stream_reply (values vs ++ Result (Error e) :: rest)
    = CbError e :: last_defined vs.
Proof.
  unfold request_stream_reply.
  rewrite takeUntil_error, catchError_error, await_completed.
  by rewrite (reply_of_last vs [CbError e]).
Qed.

(** X19. No reply before the end: as long as the result has neither
    completed nor failed and the call is not cancelled, the callback is
    not invoked, however many values were emitted. *)
Theorem reply_pending (vs : list jsval) :
  request_stream_reply (E:=E) (values vs) = [].
Proof.
  unfold request_stream_reply.
  rewrite takeUntil_pending, catchError_pending.
  unfold lastValueFrom, defaultIfEmpty. by rewrite await_pending.
Qed.

End Reply.

Section Requests.

Context {M : Type}.

Lemma request_step_closed (st : @request_state M) (ev : call_event) :
  req_status st <> Active ->
  req_values (request_step st ev) = req_values st /\
  req_status (request_step st ev) = req_status st.
Proof.
  intros Hst. destruct ev as [m|e|]; cbn [request_step].
  - unfold on_call_data, req_next.
    destruct (req_status st) eqn:Hs; [by destruct Hst | done | done].
  - rewrite on_call_error_cases. destruct (startsWith _ _); [|done].
    unfold req_error.
    destruct (req_status st) eqn:Hs; [by destruct Hst | done | done].
  - unfold on_call_end, req_complete.
    destruct (req_status st) eqn:Hs; [by destruct Hst | done | done].
Qed.

Lemma request_run_closed (evs : list call_event) (st : @request_state M) :
  req_status st <> Active ->
  req_values (fold_left request_step evs st) = req_values st.
Proof.
  revert st. induction evs as [|ev evs IH]; intros st Hst; [done|].
  cbn. destruct (request_step_closed st ev Hst) as [Hv Hs].
  rewrite IH by (by rewrite Hs). done.
Qed.

Lemma request_run_active (evs : list call_event) (st : @request_state M) :
  req_status st = Active ->
  req_values (fold_left request_step evs st)
  = req_values st ++ data_before_close evs.
Proof.
  revert st. induction evs as [|ev evs IH]; intros st Hst.
  - cbn. by rewrite app_nil_r.
  - cbn [fold_left data_before_close]. destruct ev as [m|e|]; cbn [closes].
    + rewrite IH.
      * cbn. unfold on_call_data, req_next. rewrite Hst. cbn.
        by rewrite <- app_assoc.
      * cbn. unfold on_call_data, req_next. by rewrite Hst.
    + cbn [request_step]. rewrite on_call_error_cases. unfold passed_on.
      destruct (startsWith _ _).
      * rewrite request_run_closed.
        -- unfold req_error. rewrite Hst. cbn. by rewrite app_nil_r.
        -- unfold req_error. by rewrite Hst.
      * by rewrite IH.
    + rewrite request_run_closed.
      * cbn. unfold on_call_end, req_complete. rewrite Hst. cbn.
        by rewrite app_nil_r.
      * cbn. unfold on_call_end, req_complete. by rewrite Hst.
Qed.

Lemma call_ends_run (evs : list call_event) (st : @request_state M) :
  call_ends (fold_left request_step evs st) = call_ends st + swallowed evs.
Proof.
  revert st. induction evs as [|ev evs IH]; intros st; [cbn; lia|].
  cbn [fold_left swallowed]. rewrite IH.
  destruct ev as [m|e|]; cbn [request_step].
  - unfold on_call_data, req_next. destruct (req_status st); by cbn.
  - rewrite on_call_error_cases. unfold passed_on.
    destruct (startsWith _ _); cbn.
    + unfold req_error. destruct (req_status st); by cbn.
    + lia.
  - unfold on_call_end, req_complete. destruct (req_status st); by cbn.
Qed.

(** X20. What the handler sees of the request stream: the messages of
    the ['data'] events, in order, up to the first ['end'] event or the
    first error whose text begins with [cancelled]; an error of any
    other text does not close the sequence, messages after it are still
    passed on, and [call.end()] is invoked once for every such error,
    also after the sequence is closed. *)
Theorem request_sequence_trace (evs : list (@call_event M)) :
  req_values (request_run evs) = data_before_close evs /\
  call_ends (request_run evs) = swallowed evs.
Proof.
  unfold request_run. split.
  - by rewrite request_run_active.
  - by rewrite call_ends_run.
Qed.

End Requests.

End AdapterLaws.

(** ** Laws of the package lookup and of the discovery walk *)

Module PackageLaws.

Import Js Discovery Packages DiscoveryProps.

Lemma split_dots_nonempty (s : string) : split_dots s <> [].
Proof.
  induction s as [|c s IH]; cbn; [done|].
  destruct (Ascii.eqb c "."); [done|]. by destruct (split_dots s).
Qed.

(** X24. Splitting a package name at its dots loses nothing: joining the
    parts with dots gives the name back, for every name, empty parts
    included. *)
Theorem join_split_dots (s : string) : join "." (split_dots s) = s.
Proof.
  induction s as [|c s IH]; [done|]. cbn [split_dots].
  destruct (Ascii.eqb_spec c ".") as [->|Hc].
  - pose proof (split_dots_nonempty s) as Hne.
    destruct (split_dots s) as [|p ps] eqn:Hs; [done|].
    cbn [join]. cbn [join] in IH. by rewrite <- IH.
  - pose proof (split_dots_nonempty s) as Hne.
    destruct (split_dots s) as [|p ps] eqn:Hs; [done|].
    destruct ps as [|q qs]; cbn [join] in *; by rewrite <- IH.
Qed.

Lemma split_dots_dot_free (s : string) :
  dot_free s = true -> split_dots s = [s].
Proof.
  induction s as [|c s IH]; [done|]. cbn.
  intros [Hc Hs]%andb_true_iff. apply negb_true_iff in Hc. rewrite Hc.
  by rewrite IH.
Qed.

Lemma split_dots_app (p s : string) :
  dot_free p = true ->
  split_dots (p ++ "." ++ s) = p :: split_dots s.
Proof.
  induction p as [|c p IH]; [done|]. cbn [dot_free].
  intros [Hc Hp]%andb_true_iff. apply negb_true_iff in Hc.
  change (String c p ++ "." ++ s) with (String c (p ++ "." ++ s)).
  cbn [split_dots]. by rewrite Hc, IH.
Qed.

Lemma split_dots_joined (parts : list string) :
  parts <> [] -> forallb dot_free parts = true ->
  split_dots (join "." parts) = parts.
Proof.
  induction parts as [|p parts IH]; [done|]. intros _.
  cbn [forallb]. intros [Hp Hparts]%andb_true_iff.
  destruct parts as [|q parts].
  - by apply split_dots_dot_free.
  - cbn [join]. rewrite split_dots_app by done. f_equal. by apply IH.
Qed.

(** X25. A dotted name is split into its keys: for at least one key,
    none of which contains a dot, splitting the keys joined with dots
    gives the keys back. *)
Theorem split_dots_join (parts : list string) :
  parts <> [] -> forallb dot_free parts = true ->
  split_dots (join "." parts) = parts.
Proof. apply split_dots_joined. Qed.

Lemma split_dots_join_witness :
  ["greet"; "v1"] <> [] /\ forallb dot_free ["greet"; "v1"] = true /\
  split_dots (join "." ["greet"; "v1"]) = ["greet"; "v1"].
Proof.
  split; [discriminate|]. split; [reflexivity|].
  apply (split_dots_join ["greet"; "v1"]); [discriminate | reflexivity].
Defined.

Section Reading.

Context (inherited : jsval -> string -> builtin).

Lemma walk_thrown (path : list string) :
  fold_left
    (fun pkg name =>
       match pkg with Some p => member inherited p name | None => None end)
    path None = None.
Proof. by induction path. Qed.

Lemma walk_spec (path : list string) (root : jsval) :
  fold_left
    (fun pkg name =>
       match pkg with Some p => member inherited p name | None => None end)
    path (Some root)
  = if readable inherited root path
    then Some (reach inherited root path) else None.
Proof.
  revert root. induction path as [|key path IH]; intros root; [done|].
  unfold readable, reach. cbn [fold_left reads forallb fst snd].
  unfold member at 2.
  destruct (throws inherited root key); cbn [negb andb].
  - apply walk_thrown.
  - apply IH.
Qed.

Lemma lookup_prop_own (key : string) (props : list (string * jsval)) :
  lookup_prop key props = default JUndefined (own_prop key props).
Proof.
  induction props as [|[k v] props IH]; [done|]. cbn.
  by destruct (String.eqb k key).
Qed.

(** Where a value has nothing under the name besides its listed
    properties, the read is the read of an own property. *)
Lemma read_own (v : jsval) (key : string) :
  inherited v key = Absent -> read inherited v key = get v key.
Proof.
  intros Hi. unfold read. rewrite Hi.
  destruct v as [| |b|n|s|props|props]; cbn; try done.
  all: rewrite lookup_prop_own; by destruct (own_prop key props).
Qed.

Lemma throws_own (v : jsval) (key : string) :
  inherited v key = Absent -> throws inherited v key = nullish v.
Proof.
  intros Hi. unfold throws. rewrite Hi.
  destruct (own v key); apply orb_false_r.
Qed.

Lemma own_reads_spec (path : list string) (root : jsval) :
  own_reads inherited root path = true ->
  readable inherited root path = true /\
  reach inherited root path = node_at root path.
Proof.
  revert root. induction path as [|key path IH]; intros root; [done|].
  cbn [own_reads]. intros [Hn Hrest]%andb_true_iff.
  destruct (inherited root key) eqn:Hi; try done.
  apply IH in Hrest as [Hr Hv].
  unfold readable, reach, node_at in *.
  cbn [fold_left reads forallb fst snd].
  rewrite throws_own, read_own by done. rewrite Hn. by split.
Qed.

(** X26. What binding one package name leads to, where each key of the
    name is read as JavaScript reads a property: the listed property of
    the value, else what the value inherits or has built in, else
    [undefined].  If one of the reads throws (the value read from is
    [undefined] or [null] because the key before led nowhere, or the key
    names a throwing accessor), a [TypeError] is thrown; otherwise, if
    the value the name leads to is falsy (the last key leads nowhere),
    the invalid-package exception is thrown; otherwise the services
    created are those of [getServiceNames] on that value, each with its
    [service] field. *)
Theorem bind_package_outcome (grpcContext : jsval) (packageName : string) :
  let path := split_dots packageName in
  bind_package inherited grpcContext packageName =
    if readable inherited grpcContext path
    then if truthy (reach inherited grpcContext path)
         then inr (map (fun d => (fst d, get (snd d) "service"))
                       (getServiceNames (reach inherited grpcContext path)))
         else inl (InvalidGrpcPackageException packageName)
    else inl TypeError.
Proof.
  intros path. unfold bind_package, lookupPackage. fold path.
  rewrite walk_spec.
  destruct (readable _ _ _); [|done].
  unfold createServices. by destruct (truthy _).
Qed.

(** X27. A dotted package name is followed key by key: for keys without
    dots, [lookupPackage] on the keys joined with dots returns the value
    reached by reading the keys one after the other when no read throws,
    and throws when one does; where every read is made from a value that
    is neither [undefined] nor [null] and finds nothing besides the
    listed properties, the value returned is the node at that path of
    own properties. *)
Theorem lookupPackage_join (root : jsval) (path : list string) :
  path <> [] -> forallb dot_free path = true ->
  lookupPackage inherited root (join "." path)
    = (if readable inherited root path
       then Some (reach inherited root path) else None) /\
  (own_reads inherited root path = true ->
   lookupPackage inherited root (join "." path) = Some (node_at root path)).
Proof.
  intros Hne Hdots.
  assert (H : lookupPackage inherited root (join "." path)
              = if readable inherited root path
                then Some (reach inherited root path) else None).
  { unfold lookupPackage. rewrite split_dots_joined by done.
    apply walk_spec. }
  split; [done|]. intros [Hr Hv]%own_reads_spec.
  by rewrite H, Hr, Hv.
Qed.

End Reading.

Lemma lookupPackage_join_witness :
  ["greet"; "toString"] <> [] /\
  forallb dot_free ["greet"; "toString"] = true /\
  lookupPackage sample_builtins (JObject [("greet", JObject [])])
    (join "." ["greet"; "toString"])
  = Some (JFunction []).
Proof.
  split; [discriminate|]. split; [reflexivity|].
  apply (lookupPackage_join sample_builtins
           (JObject [("greet", JObject [])]) ["greet"; "toString"]);
    [discriminate | reflexivity].
Defined.

(** A package name that is the name of an inherited method: the method
    is found, it is truthy and lists no properties, so nothing is thrown
    and no service is created. *)
Lemma inherited_name_binds_nothing :
  bind_package sample_builtins (JObject [("greet", JObject [])]) "toString"
  = inr [].
Proof. reflexivity. Qed.

(** A key that leads nowhere: as the last key it gives the
    invalid-package exception, before another key a [TypeError]. *)
Lemma missing_key_outcomes :
  bind_package sample_builtins (JObject [("greet", JObject [])]) "hello"
  = inl (InvalidGrpcPackageException "hello") /\
  bind_package sample_builtins (JObject [("greet", JObject [])]) "hello.v1"
  = inl TypeError.
Proof. by split. Qed.

Local Open Scope list_scope.

(** The walk only appends to the accumulator. *)
Lemma collect_appends (v : jsval) :
  forall (name : string) (acc : list (string * jsval)),
    collectDeepServices name v acc = acc ++ collectDeepServices name v [].
Proof.
  induction v as [| |b|n|s|props IH|props IH] using jsval_tree_ind;
    intros name acc; try (cbn; by rewrite app_nil_r).
  rewrite !collect_object. revert acc.
  induction props as [|[key child] rest IHrest] using rev_ind; intros acc.
  - cbn. by rewrite app_nil_r.
  - apply Forall_app in IH as [Hrest Hlast]. apply Forall_inv in Hlast.
    cbn in Hlast. rewrite !fold_left_app. cbn [fold_left].
    unfold loop_body at 1 3. cbn [fst snd].
    destruct (isService child).
    + rewrite (IHrest Hrest acc). by rewrite <- app_assoc.
    + rewrite (Hlast _ (fold_left _ rest acc)), (IHrest Hrest acc).
      rewrite (Hlast _ (fold_left _ rest [])). by rewrite <- app_assoc.
Qed.

(** X22. The services are found key by key, in the order of the keys:
    what is found in an object is what is found in its first keys
    followed by what is found in its remaining keys; no key influences
    what is found under another. *)
Theorem getServiceNames_app (p1 p2 : list (string * jsval)) :
  getServiceNames (JObject (p1 ++ p2))
  = getServiceNames (JObject p1) ++ getServiceNames (JObject p2).
Proof.
  unfold getServiceNames. rewrite !collect_object, fold_left_app.
  rewrite <- !collect_object. apply collect_appends.
Qed.

Local Open Scope string_scope.

Lemma qualify_qualify (prefix key : string) (found : string * jsval) :
  qualify prefix (qualify key found) = qualify (prefix ++ "." ++ key) found.
Proof.
  unfold qualify. cbn [fst snd]. f_equal.
  by rewrite !string_app_assoc.
Qed.

Lemma collect_under_prefix (v : jsval) :
  keys_nonempty v = true ->
  forall prefix, prefix <> EmptyString ->
    collectDeepServices prefix v [] = map (qualify prefix) (getServiceNames v).
Proof.
  unfold getServiceNames.
  induction v as [| |b|n|s|props IH|props IH] using jsval_tree_ind;
    intros Hkeys prefix Hp; try done.
  rewrite !collect_object.
  induction props as [|[key child] rest IHrest] using rev_ind; [done|].
  apply Forall_app in IH as [Hrest Hlast]. apply Forall_inv in Hlast.
  cbn [snd] in Hlast.
  cbn [keys_nonempty] in Hkeys. rewrite forallb_app in Hkeys.
  apply andb_true_iff in Hkeys as [Hkrest Hklast]. cbn in Hklast.
  rewrite andb_true_r in Hklast.
  apply andb_true_iff in Hklast as [Hkey Hkchild].
  apply negb_true_iff, String.eqb_neq in Hkey.
  rewrite !fold_left_app. cbn [fold_left].
  unfold loop_body at 1 3. cbn [fst snd].
  rewrite (IHrest Hrest Hkrest).
  rewrite parse_nonempty by done.
  change (parseDeepServiceName EmptyString key) with key.
  destruct (isService child).
  - by rewrite map_app.
  - rewrite collect_appends, (collect_appends child key).
    rewrite map_app. f_equal.
    rewrite (Hlast Hkchild (prefix ++ "." ++ key)) by (by destruct prefix).
    rewrite (Hlast Hkchild key) by done.
    rewrite map_map. apply map_ext. intros found.
    by rewrite qualify_qualify.
Qed.

(** X23. Names are relative to where the walk starts: the services found
    in a namespace reached under a key are the services found when the
    walk starts at that namespace, each with the key and a dot put in
    front of its name (keys non-empty). *)
Theorem services_under_namespace (key : string) (ns : jsval) :
  key <> EmptyString -> keys_nonempty ns = true -> isService ns = false ->
  getServiceNames (JObject [(key, ns)])
  = map (qualify key) (getServiceNames ns).
Proof.
  intros Hkey Hkeys Hns.
  unfold getServiceNames at 1. rewrite collect_object. cbn [fold_left].
  unfold loop_body. cbn [fst snd]. rewrite Hns.
  change (parseDeepServiceName EmptyString key) with key.
  by apply collect_under_prefix.
Qed.

Lemma services_under_namespace_witness :
  "v1" <> EmptyString /\
  getServiceNames (JObject [("v1", JObject [("Greeter", greeter)])])
  = map (qualify "v1") (getServiceNames (JObject [("Greeter", greeter)])).
Proof.
  split; [discriminate|].
  apply (services_under_namespace "v1" (JObject [("Greeter", greeter)]));
    [discriminate | reflexivity | reflexivity].
Defined.

End PackageLaws.

(** ** Laws of [close] and of the channel options *)

Module LifecycleLaws.

Import Js Lifecycle.

(** X28. Closing again does nothing: after a [close] that succeeded the
    server reference is cleared, and any further [close], graceful or
    not, succeeds without invoking anything on the server. *)
Theorem close_again_does_nothing {E : Type} (g1 g2 : bool)
    (a1 a2 : option E) (st : transport) :
  fst (close g1 a1 st) = Closed ->
  grpcClient (snd (close g1 a1 st)) = false /\
  close g2 a2 (snd (close g1 a1 st)) = (Closed, snd (close g1 a1 st)).
Proof.
  unfold close. destruct (grpcClient st), g1, a1; cbn; try done.
  all: by destruct st.
Qed.

Lemma close_again_does_nothing_witness :
  fst (close (E:=string) false None (mkTransport true [])) = Closed /\
  close (E:=string) true (Some "late")
    (snd (close (E:=string) false None (mkTransport true [])))
  = (Closed, mkTransport false [ForceShutdown]).
Proof.
  split; [reflexivity|].
  apply (close_again_does_nothing (E:=string) false true None (Some "late")
           (mkTransport true [])).
  reflexivity.
Defined.

(** X29. A failed graceful shutdown can be retried: [close] fails only
    when the shutdown is graceful and the server answers with an error;
    the server reference is then kept, and the next [close] invokes a
    shutdown on the server again. *)
Theorem failed_close_can_be_retried {E : Type} (g g2 : bool) (a : option E)
    (st : transport) (error : E) :
  fst (close g a st) = CloseFailed error ->
  g = true /\ a = Some error /\
  close (E:=E) g2 None (snd (close g a st))
  = (Closed,
     mkTransport false
       ((shutdowns st ++ [TryShutdown]) ++
        [if g2 then TryShutdown else ForceShutdown])).
Proof.
  unfold close. destruct (grpcClient st), g, a; cbn; try done.
  intros [= ->]. by destruct g2.
Qed.

Lemma failed_close_can_be_retried_witness :
  fst (close true (Some "busy") (mkTransport true [])) = CloseFailed "busy" /\
  close (E:=string) false None
    (snd (close true (Some "busy") (mkTransport true [])))
  = (Closed, mkTransport false [TryShutdown; ForceShutdown]).
Proof.
  split; [reflexivity|].
  apply (failed_close_can_be_retried true false (Some "busy")
           (mkTransport true []) "busy").
  reflexivity.
Defined.

Lemma set_limit_lookup (key k : string) (limit : option Z)
    (channel : gmap string jsval) :
  set_limit key limit channel !! k =
    if decide (k = key)
    then match effective limit with
         | Some v => Some v
         | None => channel !! k
         end
    else channel !! k.
Proof.
  unfold set_limit, effective. destruct limit as [n|]; [|by case_decide].
  destruct (truthy_number n); [|by case_decide].
  case_decide as Hk; [subst; apply lookup_insert_eq | by apply lookup_insert_ne].
Qed.

(** X30. The channel options handed to the server: each of the three
    limits, when given and not zero, is written under its [grpc.] key and
    replaces an entry of that name in [channelOptions]; a limit that is
    absent or zero leaves the entry as it is; every other entry of
    [channelOptions] is passed unchanged. *)
Theorem channel_options_lookup (o : client_options) (k : string) :
  channel_options (Some o) !! k =
    let given :=
      if decide (k = "grpc.max_metadata_size")
      then effective (maxMetadataSize o)
      else if decide (k = "grpc.max_receive_message_length")
      then effective (maxReceiveMessageLength o)
      else if decide (k = "grpc.max_send_message_length")
      then effective (maxSendMessageLength o)
      else None in
    match given with
    | Some v => Some v
    | None => default ∅ (channelOptions o) !! k
    end.
Proof.
  unfold channel_options. cbv zeta. rewrite !set_limit_lookup.
  repeat case_decide; subst; try done; by repeat case_match.
Qed.

End LifecycleLaws.
